(** * ARP template node registry: an in-memory, versioned catalogue of node types

    The development embeds [src/arp_template_node_registry/registry.py]:
    the [NodeRegistry] class with its two dictionaries, the five request
    handlers and the helper [_semver_key] with its regular expression.

    Conventions of the embedding.
    - A Python [str] is a [string]: a sequence of characters, each standing
      for the code point of the same number (U+0000 to U+00FF).  On that
      range the regular expression's [\d] is exactly [0-9], and [lower()]
      maps character to character.
    - A Python [int] is an [N] where it is parsed from digits, a [Z] where it
      is a status code or a clock reading.  [int()] is the value of the
      digits; the cap that CPython can put on the number of digits it
      converts is outside the model.
    - [self._store] is a [dict] that is looked up, assigned and iterated with
      [values()]; it is kept as an association list in insertion order.
      [self._versions] is a [defaultdict(list)] that is only read and written
      by key; it is a [gmap].
    - A handler is a function from the registry state to an outcome (a value
      or a raised exception) and the state after the call.  The request
      envelopes ([request.params], [request.body]) are opened: a handler
      takes the fields it reads. *)

From Stdlib Require Import ZArith NArith Ascii String List Sorting.Sorted
  Sorting.Permutation Lia Bool.
From stdpp Require Import gmap strings list sorting.

Set Default Proof Using "Type".
Local Open Scope string_scope.
Local Open Scope list_scope.

(** ** Python built-ins used by the registry *)

Module Py.

(** [a < b] on [str]: lexicographic on code points, a proper prefix sorts
    first. *)
Definition str_lt (a b : string) : bool := String.ltb a b.

Definition code (c : ascii) : N := N_of_ascii c.

Definition in_range (lo hi : N) (c : ascii) : bool :=
  (lo <=? code c)%N && (code c <=? hi)%N.

(** [0-9] *)
Definition is_ascii_digit (c : ascii) : bool := in_range 48 57 c.

(** [str.isdigit()] on a string of characters among [0-9A-Za-z-]: the
    string is not empty and every character is a decimal digit. *)
Fixpoint all_digits (s : string) : bool :=
  match s with
  | EmptyString => true
  | String c s' => is_ascii_digit c && all_digits s'
  end.

Definition isdigit (s : string) : bool :=
  match s with
  | EmptyString => false
  | _ => all_digits s
  end.

(** [int(s)] on a string of decimal digits (leading zeros allowed). *)
Fixpoint int_from (acc : N) (s : string) : N :=
  match s with
  | EmptyString => acc
  | String c s' => int_from (acc * 10 + (code c - 48))%N s'
  end.

Definition int (s : string) : N := int_from 0 s.

(** [s.split(sep)] for a one-character separator: never an empty list. *)
Fixpoint split (sep : ascii) (s : string) : list string :=
  match s with
  | EmptyString => [EmptyString]
  | String c s' =>
    if Ascii.eqb c sep then EmptyString :: split sep s'
    else match split sep s' with
         | [] => [String c EmptyString]
         | p :: ps => String c p :: ps
         end
  end.

(** [str.isspace()] of one character: TAB..CR, FS..US, SPACE, NEL, NBSP. *)
Definition is_space (c : ascii) : bool :=
  in_range 9 13 c || in_range 28 32 c
  || (code c =? 133)%N || (code c =? 160)%N.

Fixpoint lstrip (s : string) : string :=
  match s with
  | EmptyString => EmptyString
  | String c s' => if is_space c then lstrip s' else s
  end.

Fixpoint rstrip (s : string) : string :=
  match s with
  | EmptyString => EmptyString
  | String c s' =>
    match rstrip s' with
    | EmptyString => if is_space c then EmptyString else String c EmptyString
    | r => String c r
    end
  end.

(** [s.strip()] *)
Definition strip (s : string) : string := rstrip (lstrip s).

(** [str.lower()] of one character: A-Z, and the capital letters of
    U+00C0..U+00DE apart from the multiplication sign U+00D7. *)
Definition lower_char (c : ascii) : ascii :=
  if in_range 65 90 c
     || (in_range 192 222 c && negb (code c =? 215)%N)
  then ascii_of_N (code c + 32)
  else c.

Fixpoint lower (s : string) : string :=
  match s with
  | EmptyString => EmptyString
  | String c s' => String (lower_char c) (lower s')
  end.

(** [b.startswith(a)] *)
Fixpoint startswith (a b : string) : bool :=
  match a, b with
  | EmptyString, _ => true
  | String _ _, EmptyString => false
  | String c a', String d b' => Ascii.eqb c d && startswith a' b'
  end.

(** [a in b] on [str]: [a] occurs in [b] as a contiguous substring. *)
Fixpoint contains (a b : string) : bool :=
  startswith a b
  || match b with
     | EmptyString => false
     | String _ b' => contains a b'
     end.

(** [a or b] on an optional string: [None] and [""] are falsy. *)
Definition or_str (a : option string) (b : string) : string :=
  match a with
  | None => b
  | Some EmptyString => b
  | Some s => s
  end.

(** Three-way comparison of two tuples of the same element type, as [<],
    [==] and [>] on tuples decide it: the first position where the items
    differ decides, and a tuple that runs out first is the smaller one. *)
Fixpoint seq_compare {A : Type} (cmp : A -> A -> comparison)
    (a b : list A) : comparison :=
  match a, b with
  | [], [] => Eq
  | [], _ :: _ => Lt
  | _ :: _, [] => Gt
  | x :: a', y :: b' =>
      match cmp x y with
      | Eq => seq_compare cmp a' b'
      | c => c
      end
  end.

(** The same for a fixed-length tuple, one position at a time: [c] is the
    comparison at this position, [rest] that of the positions after it. *)
Definition lex (c rest : comparison) : comparison :=
  match c with Eq => rest | _ => c end.

Definition pair_compare {A B : Type} (cmpA : A -> A -> comparison)
    (cmpB : B -> B -> comparison) (a b : A * B) : comparison :=
  lex (cmpA (fst a) (fst b)) (cmpB (snd a) (snd b)).

(** [a < b] from the three-way comparison. *)
Definition ltb_of {A : Type} (cmp : A -> A -> comparison) (x y : A) : bool :=
  match cmp x y with Lt => true | _ => false end.

Section Ordering.
Context {A K : Type}.
Variable key : A -> K.
(** [lt k1 k2] is [k1 < k2] on keys. *)
Variable lt : K -> K -> bool.

(** Insertion into a sorted list, after the elements that are not
    greater: a stable sort. *)
Fixpoint insert_sorted (x : A) (l : list A) : list A :=
    match l with
    | [] => [x]
    | y :: l' =>
      if lt (key y) (key x) then y :: insert_sorted x l'
      else x :: l
    end.

(** [sorted(l, key=key)] and [l.sort(key=key)]: ascending and stable;
    the only comparison used is [<]. *)
Fixpoint sorted (l : list A) : list A :=
    match l with
    | [] => []
    | x :: l' => insert_sorted x (sorted l')
    end.

(** The loop of [max]: the running maximum is replaced only by a
    strictly greater item. *)
Fixpoint max_from (best : A) (l : list A) : A :=
    match l with
    | [] => best
    | x :: l' =>
      if lt (key best) (key x) then max_from x l' else max_from best l'
    end.

(** [max(l, key=key)]; [None] stands for the [ValueError] raised on an
    empty sequence. *)
Definition max (l : list A) : option A :=
    match l with
    | [] => None
    | x :: l' => Some (max_from x l')
    end.
End Ordering.

End Py.

(** ** Regular expressions of the shape used by [_SEMVER_RE]

    A backtracking matcher in continuation-passing style, with Python's
    priorities: the left alternative first, [?], [*] and [+] greedy.
    Repetition is only needed over a single character class. *)

Module Re.

Inductive regex : Type :=
| Eps                                   (* the empty pattern *)
| Bol                                   (* ^ *)
| Eol                                   (* $ *)
| Chr (p : ascii -> bool)               (* a literal or a class *)
| Seq (r1 r2 : regex)
| Alt (r1 r2 : regex)                   (* r1|r2 *)
| Opt (r : regex)                       (* (?:r)? *)
| Star (p : ascii -> bool)              (* class* *)
| Plus (p : ascii -> bool)              (* class+ *)
| Group (i : nat) (r : regex).          (* the i-th ( ) *)

(** Captured groups, the latest binding first. *)
Definition groups : Type := list (nat * string).

Fixpoint group (i : nat) (gs : groups) : option string :=
  match gs with
  | [] => None
  | (j, s) :: gs' => if Nat.eqb i j then Some s else group i gs'
  end.

Definition or_else {A} (a b : option A) : option A :=
  match a with Some _ => a | None => b end.

Fixpoint star (p : ascii -> bool) (s : string)
    (k : string -> option groups) : option groups :=
  match s with
  | String c s' => if p c then or_else (star p s' k) (k s) else k s
  | EmptyString => k s
  end.

(** The text between two positions: what was consumed from [s] to leave
    [s']. *)
Definition taken (s s' : string) : string :=
  String.substring 0 (String.length s - String.length s') s.

Section Match.
(** The whole subject string; [s] below is what is left of it. *)
Variable subject : string.

Fixpoint run (r : regex) (s : string) (gs : groups)
    (k : string -> groups -> option groups) : option groups :=
  match r with
  | Eps => k s gs
  | Bol =>
      (* the start of the string: nothing consumed yet *)
      if Nat.eqb (String.length s) (String.length subject) then k s gs else None
  | Eol =>
      (* the end of the string, or just before a final newline *)
      match s with
      | EmptyString => k s gs
      | String c EmptyString =>
          if Ascii.eqb c "010"%char then k s gs else None
      | _ => None
      end
  | Chr p =>
      match s with
      | String c s' => if p c then k s' gs else None
      | EmptyString => None
      end
  | Seq r1 r2 => run r1 s gs (fun s' gs' => run r2 s' gs' k)
  | Alt r1 r2 => or_else (run r1 s gs k) (run r2 s gs k)
  | Opt r1 => or_else (run r1 s gs k) (k s gs)
  | Star p => star p s (fun s' => k s' gs)
  | Plus p =>
      match s with
      | String c s' => if p c then star p s' (fun s'' => k s'' gs) else None
      | EmptyString => None
      end
  | Group i r1 => run r1 s gs (fun s' gs' => k s' ((i, taken s s') :: gs'))
  end.
End Match.

(** [pattern.match(subject)]: anchored at position 0. *)
Definition match_ (r : regex) (subject : string) : option groups :=
  run subject r subject [] (fun _ gs => Some gs).

(** One literal character. *)
Definition lit (c : ascii) : regex := Chr (Ascii.eqb c).

(** Concatenation of the pieces of a pattern. *)
Fixpoint seq (rs : list regex) : regex :=
  match rs with
  | [] => Eps
  | [r] => r
  | r :: rs' => Seq r (seq rs')
  end.

End Re.

(** ** The semantic-version key *)

(** [[0-9A-Za-z.-]] *)
Definition semver_class (c : ascii) : bool :=
  Py.in_range 48 57 c || Py.in_range 65 90 c || Py.in_range 97 122 c
  || Ascii.eqb c "."%char || Ascii.eqb c "-"%char.

(** The numeric field of the pattern, inside each of the first three
    groups: a lone 0, or a digit 1-9 followed by any digits. *)
Definition semver_number : Re.regex :=
  Re.Alt (Re.lit "0") (Re.Seq (Re.Chr (Py.in_range 49 57)) (Re.Star Py.is_ascii_digit)).

(** The pattern, piece by piece: [^], [v?], the three numeric groups with
    the dots between them, the optional [-] and group 4, the optional [+]
    and build metadata, [$]. *)
Definition _SEMVER_RE : Re.regex :=
  Re.seq
    [ Re.Bol; Re.Opt (Re.lit "v");
      Re.Group 1 semver_number; Re.lit ".";
      Re.Group 2 semver_number; Re.lit ".";
      Re.Group 3 semver_number;
      Re.Opt (Re.Seq (Re.lit "-") (Re.Group 4 (Re.Plus semver_class)));
      Re.Opt (Re.Seq (Re.lit "+") (Re.Plus semver_class));
      Re.Eol ].

(** One element of the prerelease tuple: [(0, n)] for a numeric identifier,
    [(1, s)] for any other.  The first component is the constructor. *)
Inductive prerelease_part : Type :=
| PNum (n : N)          (* (0, int(part)) *)
| PStr (s : string).    (* (1, part) *)

(** [(major, minor, patch, flag, parts)] *)
Definition semver_key : Type := (N * N * N * N * list prerelease_part)%type.

Definition prerelease_part_of (part : string) : prerelease_part :=
  if Py.isdigit part then PNum (Py.int part) else PStr part.

(** [None] is the [None] that Python returns when the pattern does not
    match; after a match the groups 1 to 3 are always bound. *)
Definition _semver_key (version : string) : option semver_key :=
  match Re.match_ _SEMVER_RE version with
  | None => None
  | Some m =>
      match Re.group 1 m, Re.group 2 m, Re.group 3 m with
      | Some g1, Some g2, Some g3 =>
          let major := Py.int g1 in
          let minor := Py.int g2 in
          let patch := Py.int g3 in
          match Re.group 4 m with
          | None => Some (major, minor, patch, 1%N, [])
          | Some prerelease =>
              Some (major, minor, patch, 0%N,
                    map prerelease_part_of (Py.split "." prerelease))
          end
      | _, _, _ => None
      end
  end.

(** Comparison of two elements of the prerelease tuple.  The first
    components decide between [(0, n)] and [(1, s)], so an [int] is never
    compared with a [str]. *)
Definition part_compare (a b : prerelease_part) : comparison :=
  match a, b with
  | PNum x, PNum y => N.compare x y
  | PNum _, PStr _ => Lt
  | PStr _, PNum _ => Gt
  | PStr s, PStr t => String.compare s t
  end.

(** Comparison of two keys, as Python compares the 5-tuples. *)
Definition key_compare (a b : semver_key) : comparison :=
  let '(major1, minor1, patch1, flag1, parts1) := a in
  let '(major2, minor2, patch2, flag2, parts2) := b in
  Py.lex (N.compare major1 major2)
    (Py.lex (N.compare minor1 minor2)
       (Py.lex (N.compare patch1 patch2)
          (Py.lex (N.compare flag1 flag2)
             (Py.seq_compare part_compare parts1 parts2)))).

Definition key_lt : semver_key -> semver_key -> bool := Py.ltb_of key_compare.

(** [(a1, a2) < (b1, b2)] on pairs of strings. *)
Definition pair_lt : string * string -> string * string -> bool :=
  Py.ltb_of (Py.pair_compare String.compare String.compare).

(** ** The data model

    [NodeKind], [NodeType], [Status], [Health] and [VersionInfo] are
    declared in the package [arp_standard_model], [ArpServerError] in
    [arp_standard_server]; here they have what the registry uses of them.
    Of [NodeType] the registry reads three fields; the others travel along
    untouched and are kept as one opaque value.  [NodeKind] is compared
    for equality only. *)

Inductive NodeKind : Type := atomic | composite.

#[global] Instance NodeKind_eq_dec : EqDecision NodeKind.
Proof. solve_decision. Defined.

Record NodeType : Type := {
  node_type_id : string;
  version : string;
  kind : NodeKind;
  other_fields : string
}.

Inductive Status : Type := ok.

Record Health : Type := {
  status : Status;
  time : Z
}.

Record VersionInfo : Type := {
  service_name : string;
  service_version : string;
  supported_api_versions : list string
}.

(** What a handler can raise: the server's structured error, and the two
    built-in exceptions that [max] of an empty sequence and [[-1]] of an
    empty list would raise. *)
Inductive exn : Type :=
| ArpServerError (code : string) (message : string) (status_code : Z)
| ValueError
| IndexError.

Inductive outcome (A : Type) : Type :=
| Return (a : A)
| Raise (e : exn).
Arguments Return {A} a.
Arguments Raise {A} e.

(** ** A [dict] in insertion order *)

Module Dict.
Section Dict.
Context {K V : Type} `{EqDecision K}.

(** [d.get(k)] *)
Fixpoint get (k : K) (d : list (K * V)) : option V :=
  match d with
  | [] => None
  | (k', v) :: d' => if decide (k = k') then Some v else get k d'
  end.

(** [k in d] *)
Definition mem (k : K) (d : list (K * V)) : bool :=
  match get k d with Some _ => true | None => false end.

(** [d[k] = v]: a present key keeps its place, a new key goes last. *)
Fixpoint set (k : K) (v : V) (d : list (K * V)) : list (K * V) :=
  match d with
  | [] => [(k, v)]
  | (k', v') :: d' =>
      if decide (k = k') then (k, v) :: d' else (k', v') :: set k v d'
  end.

(** [d.values()] *)
Definition values (d : list (K * V)) : list V := map snd d.

Definition keys (d : list (K * V)) : list K := map fst d.
End Dict.
End Dict.

(** ** The registry *)

Record NodeRegistry : Type := {
  _service_name : string;
  _service_version : string;
  _store : list ((string * string) * NodeType);
  _versions : gmap string (list string)
}.

(** [NodeRegistry(service_name=..., service_version=...)] *)
Definition __init__ (service_name service_version : string) : NodeRegistry :=
  {| _service_name := service_name;
     _service_version := service_version;
     _store := [];
     _versions := ∅ |}.

(** The two updates that end a successful [publish_node_type]:
    [self._store[key] = node_type] and
    [self._versions[node_type_id].append(version)], the default list being
    empty. *)
Definition with_published (self : NodeRegistry) (key : string * string)
    (node_type : NodeType) : NodeRegistry :=
  {| _service_name := _service_name self;
     _service_version := _service_version self;
     _store := Dict.set key node_type (_store self);
     _versions :=
       <[ fst key := default [] (_versions self !! fst key) ++ [snd key] ]>
         (_versions self) |}.

(** Modelled from the spec: [now], imported from [.utils], is not among the
    sources; the spec has [health] return the current timestamp.  The
    reading of the clock at the moment of the call is an input [now] of the
    handler. *)
Definition health (now : Z) (self : NodeRegistry) : outcome Health * NodeRegistry :=
  (Return {| status := ok; time := now |}, self).

(** The handler [version]; the name is that of the field of [NodeType]
    here. *)
Definition version_ (self : NodeRegistry) : outcome VersionInfo * NodeRegistry :=
  (Return {| service_name := _service_name self;
             service_version := _service_version self;
             supported_api_versions := ["v1"] |}, self).

Definition already_exists (node_type : NodeType) : exn :=
  ArpServerError "node_type_already_exists"
    ("NodeType '" +:+ node_type_id node_type +:+ "@" +:+ version node_type
       +:+ "' already exists")
    409.

(** [publish_node_type]: the check [key in self._store], then the error or
    the two updates. *)
Definition publish_node_type (node_type : NodeType) (self : NodeRegistry)
    : outcome NodeType * NodeRegistry :=
  let key := (node_type_id node_type, version node_type) in
  if Dict.mem key (_store self) then (Raise (already_exists node_type), self)
  else (Return node_type, with_published self key node_type).

Definition not_found_id (node_type_id : string) : exn :=
  ArpServerError "node_type_not_found"
    ("NodeType '" +:+ node_type_id +:+ "' not found") 404.

Definition not_found_version (node_type_id version : string) : exn :=
  ArpServerError "node_type_not_found"
    ("NodeType '" +:+ node_type_id +:+ "@" +:+ version +:+ "' not found") 404.

(** The item [(v, _semver_key(v))] of the first list comprehension. *)
Definition with_key (v : string) : string * option semver_key := (v, _semver_key v).

(** [[(v, key) for v, key in semver_versions if key is not None]] *)
Fixpoint keyed (l : list (string * option semver_key)) : list (string * semver_key) :=
  match l with
  | [] => []
  | (v, Some key) :: l' => (v, key) :: keyed l'
  | (_, None) :: l' => keyed l'
  end.

(** The branch [if version is None] of [get_node_type]: the version to look
    up, or the exception raised on the way. *)
Definition latest_version (node_type_id : string) (self : NodeRegistry)
    : outcome string :=
  let versions := default [] (_versions self !! node_type_id) in
  match versions with
  | [] => Raise (not_found_id node_type_id)
  | _ :: _ =>
      let semver_versions := map with_key versions in
      let semver_versions := keyed semver_versions in
      match semver_versions with
      | _ :: _ =>
          match Py.max snd key_lt semver_versions with
          | Some item => Return (fst item)
          | None => Raise ValueError
          end
      | [] =>
          (* sorted(versions)[-1] *)
          match last (Py.sorted id Py.str_lt versions) with
          | Some v => Return v
          | None => Raise IndexError
          end
      end
  end.

(** [get_node_type]: the version asked for or the latest one, then the
    lookup [self._store.get(key)]. *)
Definition get_node_type (node_type_id : string) (version : option string)
    (self : NodeRegistry) : outcome NodeType * NodeRegistry :=
  let resolved :=
    match version with
    | None => latest_version node_type_id self
    | Some v => Return v
    end in
  match resolved with
  | Raise e => (Raise e, self)
  | Return version =>
      let key := (node_type_id, version) in
      match Dict.get key (_store self) with
      | None => (Raise (not_found_version node_type_id version), self)
      | Some node_type => (Return node_type, self)
      end
  end.

(** The [for] loop of [list_node_types], [out] being the list built so far. *)
Fixpoint list_loop (q : string) (kind_ : option NodeKind)
    (values : list NodeType) (out : list NodeType) : list NodeType :=
  match values with
  | [] => out
  | node_type :: rest =>
      if negb (String.eqb q "")
         && negb (Py.contains q (Py.lower (node_type_id node_type)))
      then list_loop q kind_ rest out
      else if match kind_ with
              | Some k => negb (bool_decide (kind node_type = k))
              | None => false
              end
      then list_loop q kind_ rest out
      else list_loop q kind_ rest (out ++ [node_type])
  end.

(** [lambda nt: (nt.node_type_id, nt.version)], also the key under which
    [publish_node_type] stores [nt]. *)
Definition sort_key (nt : NodeType) : string * string :=
  (node_type_id nt, version nt).

(** [list_node_types]: [q] is trimmed and lowered, the loop filters, the
    result is sorted by [sort_key]. *)
Definition list_node_types (q : option string) (kind_ : option NodeKind)
    (self : NodeRegistry) : outcome (list NodeType) * NodeRegistry :=
  let q := Py.lower (Py.strip (Py.or_str q "")) in
  let out := list_loop q kind_ (Dict.values (_store self)) [] in
  (Return (Py.sorted sort_key pair_lt out), self).

(** ** Requests

    The serving framework routes five kinds of request to the five
    handlers; [handle] is one request served at clock reading [now]. *)

Inductive request : Type :=
| HealthRequest
| VersionRequest
| PublishNodeTypeRequest (node_type : NodeType)
| GetNodeTypeRequest (node_type_id : string) (version : option string)
| ListNodeTypesRequest (q : option string) (kind_ : option NodeKind).

Inductive response : Type :=
| HealthResponse (h : Health)
| VersionResponse (v : VersionInfo)
| NodeTypeResponse (nt : NodeType)
| NodeTypesResponse (l : list NodeType).

Definition reply {A} (wrap : A -> response)
    (r : outcome A * NodeRegistry) : outcome response * NodeRegistry :=
  match r with
  | (Return a, self) => (Return (wrap a), self)
  | (Raise e, self) => (Raise e, self)
  end.

Definition handle (now : Z) (req : request) (self : NodeRegistry)
    : outcome response * NodeRegistry :=
  match req with
  | HealthRequest => reply HealthResponse (health now self)
  | VersionRequest => reply VersionResponse (version_ self)
  | PublishNodeTypeRequest nt => reply NodeTypeResponse (publish_node_type nt self)
  | GetNodeTypeRequest i v => reply NodeTypeResponse (get_node_type i v self)
  | ListNodeTypesRequest q k => reply NodeTypesResponse (list_node_types q k self)
  end.

(** A request that does not publish. *)
Definition is_read (req : request) : bool :=
  match req with
  | PublishNodeTypeRequest _ => false
  | _ => true
  end.

(** The state after a sequence of requests, each with its clock reading. *)
Fixpoint run (trace : list (Z * request)) (self : NodeRegistry) : NodeRegistry :=
  match trace with
  | [] => self
  | (now, req) :: trace' => run trace' (snd (handle now req self))
  end.

(** ** Orders

    What the proofs need of a three-way comparison and of a boolean [<]. *)

Record total_order {A : Type} (cmp : A -> A -> comparison) : Prop := {
  cmp_eq : forall x y, cmp x y = Eq -> x = y;
  cmp_refl : forall x, cmp x x = Eq;
  cmp_opp : forall x y, cmp y x = CompOpp (cmp x y);
  cmp_trans : forall x y z, cmp x y = Lt -> cmp y z = Lt -> cmp x z = Lt
}.

Record strict_weak_order {K : Type} (lt : K -> K -> bool) : Prop := {
  swo_irrefl : forall x, lt x x = false;
  swo_trans : forall x y z, lt x y = true -> lt y z = true -> lt x z = true;
  swo_ntrans : forall x y z, lt x y = false -> lt y z = false -> lt x z = false
}.

(** ** Invariants of the registry state *)

(** The versions recorded for an identifier, as [get_node_type] reads them:
    [self._versions.get(node_type_id) or []]. *)
Definition published_versions (self : NodeRegistry) (i : string) : list string :=
  default [] (_versions self !! i).

(** Every version string in [_versions[i]] has an entry in [_store] under
    the key [(i, version)]. *)
Definition registry_inv (self : NodeRegistry) : Prop :=
  forall (i : string) (vs : list string) (v : string),
    _versions self !! i = Some vs -> v ∈ vs ->
    is_Some (Dict.get (i, v) (_store self)).

(** Every entry of [_store] sits under the identifier and version that it
    carries, and no key occurs twice. *)
Definition store_keyed (self : NodeRegistry) : Prop :=
  Forall (fun entry => fst entry = sort_key (snd entry)) (_store self)
  /\ NoDup (Dict.keys (_store self)).

(** The states of a registry in service: those that a new registry gets
    into by serving requests. *)
Definition reachable (self : NodeRegistry) : Prop :=
  exists name ver trace, self = run trace (__init__ name ver).

(** The invariant can be checked on a given state. *)
#[global] Instance registry_inv_dec (self : NodeRegistry) : Decision (registry_inv self).
Proof.
  refine (cast_if (decide (map_Forall
            (fun i vs => Forall (fun v => is_Some (Dict.get (i, v) (_store self))) vs)
            (_versions self))));
    unfold registry_inv; rewrite map_Forall_lookup in *.
  - intros i vs v Hvs Hv. specialize (m i vs Hvs).
    rewrite Forall_forall in m. auto.
  - intros H. apply n. intros i vs Hvs. apply Forall_forall. eauto.
Defined.

(** ** The ordering of semantic versions, as the specification words it *)

(** Plain lexicographic order on code points: the first differing character
    decides, and a proper prefix sorts first. *)
Inductive codepoint_lex_lt : string -> string -> Prop :=
| lex_prefix c t : codepoint_lex_lt EmptyString (String c t)
| lex_head c d s t : (Py.code c < Py.code d)%N -> codepoint_lex_lt (String c s) (String d t)
| lex_tail c s t : codepoint_lex_lt s t -> codepoint_lex_lt (String c s) (String c t).

(** A parsed version: the three numbers and the prerelease identifiers, if
    any.  A numeric identifier is held by its value, any other by its text;
    build metadata is not kept. *)
Record SemVer : Type := {
  major : N;
  minor : N;
  patch : N;
  prerelease : option (list prerelease_part)
}.

(** Numeric identifiers compare numerically and sort below the others; the
    others compare as strings. *)
Inductive identifier_lt : prerelease_part -> prerelease_part -> Prop :=
| numeric_numeric m n : (m < n)%N -> identifier_lt (PNum m) (PNum n)
| numeric_other n s : identifier_lt (PNum n) (PStr s)
| other_other s t : codepoint_lex_lt s t -> identifier_lt (PStr s) (PStr t).

(** Identifiers are compared left to right; a proper prefix sorts lower. *)
Inductive prerelease_lt : list prerelease_part -> list prerelease_part -> Prop :=
| shorter_prefix y q : prerelease_lt [] (y :: q)
| first_difference x y p q : identifier_lt x y -> prerelease_lt (x :: p) (y :: q)
| common_head x p q : prerelease_lt p q -> prerelease_lt (x :: p) (x :: q).

Inductive semver_lt (a b : SemVer) : Prop :=
| by_major : (major a < major b)%N -> semver_lt a b
| by_minor : major a = major b -> (minor a < minor b)%N -> semver_lt a b
| by_patch :
    major a = major b -> minor a = minor b -> (patch a < patch b)%N ->
    semver_lt a b
| prerelease_below_release p :
    major a = major b -> minor a = minor b -> patch a = patch b ->
    prerelease a = Some p -> prerelease b = None -> semver_lt a b
| by_prerelease p q :
    major a = major b -> minor a = minor b -> patch a = patch b ->
    prerelease a = Some p -> prerelease b = Some q -> prerelease_lt p q ->
    semver_lt a b.

(** The version that a key stands for: flag 1 marks a release, flag 0 a
    prerelease with the given identifiers. *)
Definition semver_of_key (k : semver_key) : SemVer :=
  let '(major_, minor_, patch_, flag, parts) := k in
  {| major := major_; minor := minor_; patch := patch_;
     prerelease := if (flag =? 0)%N then Some parts else None |}.

Definition parse_semver (version : string) : option SemVer :=
  semver_of_key <$> _semver_key version.

(** The two shapes of key that [_semver_key] builds. *)
Definition key_shape (k : semver_key) : Prop :=
  let '(_, _, _, flag, parts) := k in
  (flag = 1%N /\ parts = []) \/ flag = 0%N.

(** ** States used in the examples *)

Definition echo (v : string) : NodeType :=
  {| node_type_id := "atomic.echo"; version := v; kind := atomic;
     other_fields := "{}" |}.

Definition fresh_registry : NodeRegistry :=
  __init__ "arp-template-node-registry" "0.1.0".

(** The registry after publishing [atomic.echo] in the given versions, one
    after the other. *)
Definition registry_with (versions : list string) : NodeRegistry :=
  run (map (fun v => (0%Z, PublishNodeTypeRequest (echo v))) versions)
    fresh_registry.

(** ** Listing, as the specification words it *)

(** Equality of strings up to the case of their letters. *)
Definition same_ignoring_case (a b : string) : Prop := Py.lower a = Py.lower b.

(** [t] occurs in [s] as a substring, up to case. *)
Definition occurs_ignoring_case (t s : string) : Prop :=
  exists before found after,
    s = before +:+ found +:+ after /\ same_ignoring_case found t.

Fixpoint all_space (s : string) : Prop :=
  match s with
  | EmptyString => True
  | String c s' => Py.is_space c = true /\ all_space s'
  end.

(** The query filter: no query, or an empty or whitespace-only one, lets
    every identifier through; any other must occur, trimmed, in the
    identifier up to case. *)
Definition query_selects (q : option string) (i : string) : Prop :=
  match q with
  | None => True
  | Some t => all_space t \/ occurs_ignoring_case (Py.strip t) i
  end.

(** The kind filter: equality with the kind asked for, if one is. *)
Definition kind_selects (k : option NodeKind) (node_type : NodeType) : Prop :=
  match k with
  | None => True
  | Some k' => kind node_type = k'
  end.

Definition selected (q : option string) (k : option NodeKind)
    (node_type : NodeType) : Prop :=
  query_selects q (node_type_id node_type) /\ kind_selects k node_type.


(** The test of the loop body of [list_node_types]: the item is appended. *)
Definition kept (q : string) (kind_ : option NodeKind) (node_type : NodeType) : bool :=
  negb (negb (String.eqb q "")
        && negb (Py.contains q (Py.lower (node_type_id node_type))))
  && negb match kind_ with
          | Some k => negb (bool_decide (kind node_type = k))
          | None => false
          end.

(** ** The strings that have a key

    The shape [v]MAJOR.MINOR.PATCH[-PRERELEASE][+BUILD]: what the pattern
    accepts, stated on the string itself. *)

Fixpoint all_in (p : ascii -> bool) (s : string) : bool :=
  match s with
  | EmptyString => true
  | String c s' => p c && all_in p s'
  end.

Fixpoint drop_while (p : ascii -> bool) (s : string) : string :=
  match s with
  | EmptyString => EmptyString
  | String c s' => if p c then drop_while p s' else s
  end.

(** [s] is empty or starts with a character outside the class [p]. *)
Definition starts_outside (p : ascii -> bool) (s : string) : Prop :=
  match s with
  | EmptyString => True
  | String c _ => p c = false
  end.

(** The continuation [k] fails on every string that starts in the class
    [p]: giving back characters of a repetition over [p] cannot help. *)
Definition rejects (p : ascii -> bool) (k : string -> option Re.groups) : Prop :=
  forall c s, p c = true -> k (String c s) = None.

(** MAJOR, MINOR or PATCH: a lone 0, or digits of which the first is not 0. *)
Definition numeric_field (s : string) : Prop :=
  s = "0"
  \/ exists c rest,
       s = String c rest /\ Py.in_range 49 57 c = true
       /\ all_in Py.is_ascii_digit rest = true.

(** PRERELEASE or BUILD: one or more characters among [0-9A-Za-z.-]. *)
Definition class_run (s : string) : Prop :=
  s <> "" /\ all_in semver_class s = true.

Definition optional_run (o : option string) : Prop :=
  match o with Some s => class_run s | None => True end.

(** An optional part with its leading mark. *)
Definition tagged (mark : ascii) (o : option string) : string :=
  match o with Some s => String mark s | None => "" end.

(** The key built from the text of the fields. *)
Definition key_of_fields (M m p : string) (pre : option string) : semver_key :=
  match pre with
  | None => (Py.int M, Py.int m, Py.int p, 1%N, [])
  | Some s =>
      (Py.int M, Py.int m, Py.int p, 0%N,
       map prerelease_part_of (Py.split "." s))
  end.

Inductive semver_text : string -> semver_key -> Prop :=
| semver_text_of (v M m p : string) (pre build : option string) :
    v = "" \/ v = "v" ->
    numeric_field M -> numeric_field m -> numeric_field p ->
    optional_run pre -> optional_run build ->
    semver_text
      (v +:+ M +:+ "." +:+ m +:+ "." +:+ p +:+ tagged "-" pre +:+ tagged "+" build)
      (key_of_fields M m p pre).

(** What [$] lets follow: nothing, or one newline. *)
Definition last_line (s : string) : Prop := s = "" \/ s = String "010" "".

(** The pattern from its end: build metadata and [$]; the prerelease before
    them; the three numbers before that. *)
Definition tail_build : Re.regex :=
  Re.Seq (Re.Opt (Re.Seq (Re.lit "+") (Re.Plus semver_class))) Re.Eol.

Definition tail_pre : Re.regex :=
  Re.Seq (Re.Opt (Re.Seq (Re.lit "-") (Re.Group 4 (Re.Plus semver_class))))
    tail_build.

Definition tail_numbers : Re.regex :=
  Re.Seq (Re.Group 1 semver_number)
    (Re.Seq (Re.lit ".")
       (Re.Seq (Re.Group 2 semver_number)
          (Re.Seq (Re.lit ".")
             (Re.Seq (Re.Group 3 semver_number) tail_pre)))).

(** The groups of a match, the latest first. *)
Definition pre_groups (pre : option string) (gs : Re.groups) : Re.groups :=
  match pre with Some t => (4, t) :: gs | None => gs end.

Definition match_groups (M m p : string) (pre : option string) : Re.groups :=
  pre_groups pre [(3, p); (2, m); (1, M)].

(** ** Version strings by their fields *)

(** The text [v]MAJOR.MINOR.PATCH[-PRERELEASE][+BUILD] followed by [rest]. *)
Definition version_text (v M m p : string) (pre build : option string)
    (rest : string) : string :=
  v +:+ M +:+ "." +:+ m +:+ "." +:+ p
    +:+ tagged "-" pre +:+ tagged "+" build +:+ rest.

(** The optional leading [v]. *)
Definition v_prefix (v : string) : Prop := v = "" \/ v = "v".

(** A zero followed by a digit at the start of a field. *)
Definition leading_zero (s : string) : Prop :=
  exists d rest, s = String "0" (String d rest).

(** ** The version index against the store *)

(** The versions stored for an identifier, in the order of the store. *)
Definition stored_versions (self : NodeRegistry) (i : string) : list string :=
  snd <$> filter (fun k => fst k = i) (Dict.keys (_store self)).

(** The index lists, for every identifier, the versions of the store in
    the order of the store. *)
Definition index_mirrors_store (self : NodeRegistry) : Prop :=
  forall i, published_versions self i = stored_versions self i.

(** A second identifier, of the other kind, for the examples. *)
Definition flow (v : string) : NodeType :=
  {| node_type_id := "composite.flow"; version := v; kind := composite;
     other_fields := "{}" |}.

Definition mixed_registry : NodeRegistry :=
  run [(0%Z, PublishNodeTypeRequest (echo "0.2.0"));
       (0%Z, PublishNodeTypeRequest (flow "1.0.0"));
       (0%Z, PublishNodeTypeRequest (echo "0.10.0"))] fresh_registry.

(** * Properties *)

(** ** Three-way comparisons that are total orders *)

Lemma N_compare_order : total_order N.compare.
Proof.
  split.
  - intros x y. apply N.compare_eq.
  - apply N.compare_refl.
  - intros x y. apply N.compare_antisym.
  - intros x y z. rewrite !N.compare_lt_iff. lia.
Qed.

Lemma ascii_compare_order : total_order Ascii.compare.
Proof.
  split; unfold Ascii.compare.
  - intros x y H. apply N.compare_eq in H.
    rewrite <- (ascii_N_embedding x), <- (ascii_N_embedding y). congruence.
  - intros x. apply N.compare_refl.
  - intros x y. apply N.compare_antisym.
  - intros x y z. rewrite !N.compare_lt_iff. lia.
Qed.

Section Lexicographic.
Context {A : Type} (cmp : A -> A -> comparison) (Hcmp : total_order cmp).

Lemma seq_compare_order : total_order (Py.seq_compare cmp).
Proof using Hcmp.
  destruct Hcmp as [Heq Hrefl Hopp Htrans]. split.
  - induction x as [|x a IH]; intros [|y b]; simpl; try discriminate; auto.
    destruct (cmp x y) eqn:E; try discriminate.
    intros H. apply Heq in E. apply IH in H. congruence.
  - induction x as [|x a IH]; simpl; auto. now rewrite Hrefl.
  - induction x as [|x a IH]; intros [|y b]; simpl; auto.
    rewrite (Hopp x y). destruct (cmp x y); simpl; auto.
  - induction x as [|x a IH]; intros [|y b] [|z c]; simpl; try discriminate; auto.
    destruct (cmp x y) eqn:Exy; try discriminate;
      destruct (cmp y z) eqn:Eyz; try discriminate; intros H1 H2.
    + apply Heq in Exy, Eyz. subst. rewrite Hrefl. eauto.
    + apply Heq in Exy. subst. now rewrite Eyz.
    + apply Heq in Eyz. subst. now rewrite Exy.
    + now rewrite (Htrans _ _ _ Exy Eyz).
Qed.

Context {B : Type} (cmp' : B -> B -> comparison) (Hcmp' : total_order cmp').

Lemma pair_compare_order : total_order (Py.pair_compare cmp cmp').
Proof using Hcmp Hcmp'.
  destruct Hcmp as [Heq Hrefl Hopp Htrans].
  destruct Hcmp' as [Heq' Hrefl' Hopp' Htrans'].
  unfold Py.pair_compare, Py.lex. split.
  - intros [a b] [c d]; simpl. destruct (cmp a c) eqn:E; try discriminate.
    intros H. apply Heq in E. apply Heq' in H. congruence.
  - intros [a b]; simpl. now rewrite Hrefl.
  - intros [a b] [c d]; simpl. rewrite (Hopp a c).
    destruct (cmp a c); simpl; auto.
  - intros [a b] [c d] [e f]; simpl.
    destruct (cmp a c) eqn:E1; try discriminate;
      destruct (cmp c e) eqn:E2; try discriminate; intros H1 H2.
    + apply Heq in E1, E2. subst. rewrite Hrefl. eauto.
    + apply Heq in E1. subst. now rewrite E2.
    + apply Heq in E2. subst. now rewrite E1.
    + now rewrite (Htrans _ _ _ E1 E2).
Qed.
End Lexicographic.

Lemma string_compare_is_seq (s t : string) :
  String.compare s t
  = Py.seq_compare Ascii.compare (list_ascii_of_string s) (list_ascii_of_string t).
Proof.
  revert t. induction s as [|c s IH]; intros [|d t]; simpl; auto.
  rewrite IH. reflexivity.
Qed.

Lemma string_compare_order : total_order String.compare.
Proof.
  pose proof (seq_compare_order _ ascii_compare_order) as [Heq Hrefl Hopp Htrans].
  split; intros; rewrite ?string_compare_is_seq in *; eauto.
  rewrite <- (string_of_list_ascii_of_string x), <- (string_of_list_ascii_of_string y).
  f_equal. eauto.
Qed.

Lemma part_compare_order : total_order part_compare.
Proof.
  destruct N_compare_order as [Heq Hrefl Hopp Htrans].
  destruct string_compare_order as [Heq' Hrefl' Hopp' Htrans'].
  split.
  - intros [x|s] [y|t]; simpl; try discriminate; intros H; f_equal; eauto.
  - intros [x|s]; simpl; eauto.
  - intros [x|s] [y|t]; simpl; eauto.
  - intros [x|s] [y|t] [z|u]; simpl; try discriminate; eauto.
Qed.

Lemma key_compare_nested (a b : semver_key) :
  key_compare a b
  = Py.pair_compare
      (Py.pair_compare
         (Py.pair_compare (Py.pair_compare N.compare N.compare) N.compare)
         N.compare)
      (Py.seq_compare part_compare) a b.
Proof.
  destruct a as [[[[a1 a2] a3] a4] a5], b as [[[[b1 b2] b3] b4] b5].
  unfold key_compare, Py.pair_compare, Py.lex; simpl.
  destruct (N.compare a1 b1), (N.compare a2 b2), (N.compare a3 b3),
    (N.compare a4 b4); reflexivity.
Qed.

Lemma key_compare_order : total_order key_compare.
Proof.
  pose proof N_compare_order as HN.
  pose proof (seq_compare_order _ part_compare_order) as HP.
  pose proof (pair_compare_order _
    (pair_compare_order _
       (pair_compare_order _ (pair_compare_order _ HN _ HN) _ HN) _ HN) _ HP)
    as [Heq Hrefl Hopp Htrans].
  split; intros; rewrite ?key_compare_nested in *; eauto.
Qed.

(** ** Strict weak orders given as a boolean [<] *)

Lemma ltb_of_order {A : Type} (cmp : A -> A -> comparison) :
  total_order cmp -> strict_weak_order (Py.ltb_of cmp).
Proof.
  intros [Heq Hrefl Hopp Htrans]. unfold Py.ltb_of. split.
  - intros x. now rewrite Hrefl.
  - intros x y z. destruct (cmp x y) eqn:E1; try discriminate.
    destruct (cmp y z) eqn:E2; try discriminate.
    now rewrite (Htrans _ _ _ E1 E2).
  - intros x y z H1 H2.
    destruct (cmp x z) eqn:E; auto.
    destruct (cmp x y) eqn:E1; try discriminate.
    + apply Heq in E1. subst. now rewrite E in H2.
    + destruct (cmp y z) eqn:E2; try discriminate.
      * apply Heq in E2. subst. congruence.
      * assert (E1' : cmp y x = Lt) by (rewrite Hopp, E1; reflexivity).
        assert (E2' : cmp z y = Lt) by (rewrite Hopp, E2; reflexivity).
        pose proof (Htrans _ _ _ E2' E1') as H.
        rewrite Hopp, E in H. discriminate.
Qed.

Lemma str_lt_order : strict_weak_order Py.str_lt.
Proof. apply (ltb_of_order String.compare), string_compare_order. Qed.

Lemma key_lt_order : strict_weak_order key_lt.
Proof. apply (ltb_of_order key_compare), key_compare_order. Qed.

Lemma pair_lt_order : strict_weak_order pair_lt.
Proof.
  apply ltb_of_order, pair_compare_order; apply string_compare_order.
Qed.

(** ** [max] and [sorted] *)

Section OrderingFacts.
Context {A K : Type} (key : A -> K) (lt : K -> K -> bool).
Hypothesis Hlt : strict_weak_order lt.

Let below (r x : A) : Prop := lt (key x) (key r) = true.
Let not_above (r x : A) : Prop := lt (key r) (key x) = false.
Let ascending (a b : A) : Prop := lt (key b) (key a) = false.

Lemma lt_not_above x y : lt (key x) (key y) = true -> lt (key y) (key x) = false.
Proof using Hlt.
  intros H. destruct (lt (key y) (key x)) eqn:E; auto.
  pose proof (swo_trans _ Hlt _ _ _ H E) as H'.
  rewrite (swo_irrefl _ Hlt) in H'. discriminate.
Qed.

Lemma not_above_lt x y z :
  lt (key y) (key x) = false -> lt (key y) (key z) = true ->
  lt (key x) (key z) = true.
Proof using Hlt.
  intros H1 H2. destruct (lt (key x) (key z)) eqn:E; auto.
  rewrite (swo_ntrans _ Hlt _ _ _ H1 E) in H2. discriminate.
Qed.

Lemma max_from_split (l : list A) : forall best pre mid,
  Forall (below best) pre -> Forall (not_above best) mid ->
  exists l1 l2,
    pre ++ best :: mid ++ l = l1 ++ Py.max_from key lt best l :: l2
    /\ Forall (below (Py.max_from key lt best l)) l1
    /\ Forall (not_above (Py.max_from key lt best l)) l2.
Proof using Hlt.
  induction l as [|x l IH]; intros best pre mid Hpre Hmid; simpl.
  - exists pre, mid. rewrite app_nil_r. auto.
  - destruct (lt (key best) (key x)) eqn:E.
    + destruct (IH x (pre ++ best :: mid) []) as (l1 & l2 & Heq & H1 & H2).
      * apply Forall_app. split; [|constructor]; auto.
        -- eapply Forall_impl; [exact Hpre|]. intros y Hy.
           unfold below in *. eapply swo_trans; eauto.
        -- eapply Forall_impl; [exact Hmid|]. intros y Hy.
           unfold below, not_above in *. eapply not_above_lt; eauto.
      * constructor.
      * exists l1, l2. split; auto. rewrite <- Heq. simpl.
        rewrite <- !app_assoc. reflexivity.
    + destruct (IH best pre (mid ++ [x])) as (l1 & l2 & Heq & H1 & H2); auto.
      * apply Forall_app. split; auto.
      * exists l1, l2. split; auto. rewrite <- Heq.
        rewrite <- !app_assoc. reflexivity.
Qed.

(** [max] returns the first of the items whose key is greatest. *)
Lemma max_first_greatest (l : list A) (r : A) :
  Py.max key lt l = Some r ->
  exists l1 l2,
    l = l1 ++ r :: l2
    /\ Forall (fun x => lt (key x) (key r) = true) l1
    /\ Forall (fun x => lt (key r) (key x) = false) l2.
Proof using Hlt.
  destruct l as [|x l]; simpl; [discriminate|].
  intros [= <-].
  destruct (max_from_split l x [] []) as (l1 & l2 & Heq & H1 & H2);
    try constructor.
  exists l1, l2. auto.
Qed.

Lemma max_is_Some (l : list A) : l <> [] -> is_Some (Py.max key lt l).
Proof. destruct l; [congruence|]. simpl. eauto. Qed.

Lemma insert_sorted_perm (x : A) (l : list A) :
  Py.insert_sorted key lt x l ≡ₚ x :: l.
Proof.
  induction l as [|y l IH]; simpl; auto.
  destruct (lt (key y) (key x)); auto.
  rewrite IH. apply Permutation_swap.
Qed.

Lemma sorted_perm (l : list A) : Py.sorted key lt l ≡ₚ l.
Proof.
  induction l as [|x l IH]; simpl; auto.
  rewrite insert_sorted_perm. constructor. exact IH.
Qed.

Lemma insert_sorted_ascending (x : A) (l : list A) :
  StronglySorted ascending l ->
  StronglySorted ascending (Py.insert_sorted key lt x l).
Proof using Hlt.
  induction 1 as [|y l Hs IH Hy]; simpl.
  - repeat constructor.
  - destruct (lt (key y) (key x)) eqn:E.
    + constructor; auto.
      rewrite insert_sorted_perm. constructor; auto.
      unfold ascending. now apply lt_not_above in E.
    + constructor; [constructor; auto|].
      constructor; [exact E|].
      eapply Forall_impl; [exact Hy|]. intros z Hz. unfold ascending in *.
      eapply swo_ntrans; eauto.
Qed.

(** The result of [sorted] is in ascending order: no item is above a later
    one. *)
Lemma sorted_ascending (l : list A) :
  StronglySorted (fun a b => lt (key b) (key a) = false) (Py.sorted key lt l).
Proof using Hlt.
  induction l as [|x l IH]; simpl; [constructor|].
  assert (H := insert_sorted_ascending x _ IH).
  exact H.
Qed.

Lemma sorted_last_greatest (l : list A) (m : A) :
  last (Py.sorted key lt l) = Some m ->
  m ∈ l /\ forall x, x ∈ l -> lt (key m) (key x) = false.
Proof using Hlt.
  intros Hlast. apply last_Some in Hlast as [l' Hl'].
  pose proof (sorted_perm l) as Hp. pose proof (sorted_ascending l) as Hs.
  rewrite Hl' in Hp, Hs. split.
  - rewrite <- Hp. set_solver.
  - intros x Hx. rewrite <- Hp in Hx.
    apply elem_of_app in Hx as [Hx|Hx].
    + eapply (StronglySorted_app_1_elem_of _ _ _ x m) in Hs; [exact Hs|exact Hx|].
      set_solver.
    + apply list_elem_of_singleton in Hx as ->. apply (swo_irrefl _ Hlt).
Qed.

Lemma sorted_nonempty (l : list A) : l <> [] -> Py.sorted key lt l <> [].
Proof.
  intros Hl Hs. pose proof (sorted_perm l) as Hp. rewrite Hs in Hp.
  apply Permutation_nil_l in Hp. auto.
Qed.
End OrderingFacts.

(** ** The dictionary *)

Section DictFacts.
Context {K V : Type} `{EqDecision K}.
Implicit Types (d : list (K * V)) (k : K) (v : V).

Lemma dict_get_set_eq k v d : Dict.get k (Dict.set k v d) = Some v.
Proof.
  induction d as [|[k' v'] d IH]; simpl.
  - now rewrite decide_True.
  - destruct (decide (k = k')) as [->|Hne]; simpl.
    + now rewrite decide_True.
    + now rewrite decide_False.
Qed.

Lemma dict_get_set_ne k k' v d :
  k <> k' -> Dict.get k' (Dict.set k v d) = Dict.get k' d.
Proof.
  intros Hne. induction d as [|[k'' v''] d IH]; simpl.
  - now rewrite decide_False by congruence.
  - destruct (decide (k = k'')) as [->|Hne']; simpl.
    + now rewrite !decide_False by congruence.
    + destruct (decide (k' = k'')); auto.
Qed.

Lemma dict_mem_get k d : Dict.mem k d = true <-> is_Some (Dict.get k d).
Proof.
  unfold Dict.mem. destruct (Dict.get k d); split; intros H; eauto.
  - discriminate.
  - destruct H as [? [=]].
Qed.

Lemma dict_mem_false k d : Dict.mem k d = false <-> Dict.get k d = None.
Proof. unfold Dict.mem. destruct (Dict.get k d); split; congruence. Qed.

Lemma dict_get_elem k v d : Dict.get k d = Some v -> (k, v) ∈ d.
Proof.
  induction d as [|[k' v'] d IH]; simpl; [discriminate|].
  destruct (decide (k = k')) as [->|Hne].
  - intros [= ->]. left.
  - intros H. right. auto.
Qed.

Lemma dict_get_None_keys k d : Dict.get k d = None <-> k ∉ Dict.keys d.
Proof.
  induction d as [|[k' v'] d IH]; simpl.
  - split; auto. intros _ H. inversion H.
  - rewrite not_elem_of_cons. destruct (decide (k = k')) as [->|Hne].
    + split; [discriminate|]. intros [? _]. congruence.
    + rewrite IH. tauto.
Qed.

Lemma dict_set_fresh k v d : Dict.get k d = None -> Dict.set k v d = d ++ [(k, v)].
Proof.
  induction d as [|[k' v'] d IH]; simpl; auto.
  destruct (decide (k = k')); [discriminate|].
  intros H. now rewrite IH.
Qed.
End DictFacts.

(** ** The handlers and the state *)

Lemma read_keeps_state (now : Z) (req : request) (self : NodeRegistry) :
  is_read req = true -> snd (handle now req self) = self.
Proof.
  destruct req as [| |node_type|i v|q k]; simpl; try discriminate; intros _; auto.
  - unfold get_node_type.
    destruct (match v with None => _ | Some v0 => _ end); simpl; auto.
    destruct (Dict.get _ _); auto.
Qed.

Lemma publish_conflict (node_type : NodeType) (self : NodeRegistry) :
  is_Some (Dict.get (sort_key node_type) (_store self)) ->
  publish_node_type node_type self = (Raise (already_exists node_type), self).
Proof.
  intros H. apply dict_mem_get in H. unfold publish_node_type.
  fold (sort_key node_type). now rewrite H.
Qed.

Lemma publish_fresh (node_type : NodeType) (self : NodeRegistry) :
  Dict.get (sort_key node_type) (_store self) = None ->
  publish_node_type node_type self
  = (Return node_type, with_published self (sort_key node_type) node_type).
Proof.
  intros H. apply dict_mem_false in H. unfold publish_node_type.
  fold (sort_key node_type). now rewrite H.
Qed.

Lemma publish_cases (node_type : NodeType) (self : NodeRegistry) :
  (is_Some (Dict.get (sort_key node_type) (_store self))
   /\ publish_node_type node_type self = (Raise (already_exists node_type), self))
  \/ (Dict.get (sort_key node_type) (_store self) = None
      /\ publish_node_type node_type self
         = (Return node_type, with_published self (sort_key node_type) node_type)).
Proof.
  destruct (Dict.get (sort_key node_type) (_store self)) eqn:E.
  - left. split; eauto. apply publish_conflict. rewrite E. eauto.
  - right. split; auto. now apply publish_fresh.
Qed.

Lemma with_published_inv (self : NodeRegistry) (node_type : NodeType) :
  registry_inv self ->
  registry_inv (with_published self (sort_key node_type) node_type).
Proof.
  intros Hinv i vs v Hvs Hv. simpl in *.
  destruct (decide ((i, v) = sort_key node_type)) as [->|Hne].
  { rewrite dict_get_set_eq. eauto. }
  rewrite dict_get_set_ne by congruence.
  destruct (decide (node_type_id node_type = i)) as [<-|Hi].
  - rewrite lookup_insert_eq in Hvs. injection Hvs as <-.
    apply elem_of_app in Hv as [Hv|Hv].
    + destruct (_versions self !! node_type_id node_type) as [vs|] eqn:E;
        simpl in Hv; [eauto|inversion Hv].
    + apply list_elem_of_singleton in Hv as ->. now destruct Hne.
  - rewrite lookup_insert_ne in Hvs by exact Hi. eauto.
Qed.

Lemma handle_inv (now : Z) (req : request) (self : NodeRegistry) :
  registry_inv self -> registry_inv (snd (handle now req self)).
Proof.
  intros Hinv. destruct (is_read req) eqn:E.
  - now rewrite read_keeps_state.
  - destruct req; try discriminate. simpl.
    destruct (publish_cases node_type self) as [[_ ->]|[_ ->]]; simpl; auto.
    now apply with_published_inv.
Qed.

Lemma init_inv (name ver : string) : registry_inv (__init__ name ver).
Proof. intros i vs v H. simpl in H. rewrite lookup_empty in H. discriminate. Qed.

Lemma handle_store_grows (now : Z) (req : request) (self : NodeRegistry)
    (k : string * string) (x : NodeType) :
  Dict.get k (_store self) = Some x ->
  Dict.get k (_store (snd (handle now req self))) = Some x.
Proof.
  intros Hk. destruct (is_read req) eqn:E.
  - now rewrite read_keeps_state.
  - destruct req; try discriminate. simpl.
    destruct (publish_cases node_type self) as [[_ ->]|[Hnone ->]]; simpl; auto.
    rewrite dict_get_set_ne; auto. congruence.
Qed.

Lemma run_store_grows (trace : list (Z * request)) (self : NodeRegistry)
    (k : string * string) (x : NodeType) :
  Dict.get k (_store self) = Some x ->
  Dict.get k (_store (run trace self)) = Some x.
Proof.
  revert self. induction trace as [|[now req] trace IH]; intros self H; simpl; auto.
  apply IH. now apply handle_store_grows.
Qed.

Lemma run_inv (trace : list (Z * request)) (self : NodeRegistry) :
  registry_inv self -> registry_inv (run trace self).
Proof.
  revert self. induction trace as [|[now req] trace IH]; intros self H; simpl; auto.
  apply IH. now apply handle_inv.
Qed.

Lemma with_published_keyed (self : NodeRegistry) (node_type : NodeType) :
  Dict.get (sort_key node_type) (_store self) = None ->
  store_keyed self ->
  store_keyed (with_published self (sort_key node_type) node_type).
Proof.
  intros Hnone [Hall Hnd]. unfold store_keyed. simpl.
  rewrite dict_set_fresh by exact Hnone. split.
  - apply Forall_app. split; auto.
  - unfold Dict.keys in *. rewrite map_app. simpl.
    apply NoDup_app. split; [exact Hnd|]. split.
    + intros k Hk Hk'. apply list_elem_of_singleton in Hk' as ->.
      now apply dict_get_None_keys in Hnone.
    + apply NoDup_singleton.
Qed.

Lemma handle_keyed (now : Z) (req : request) (self : NodeRegistry) :
  store_keyed self -> store_keyed (snd (handle now req self)).
Proof.
  intros Hinv. destruct (is_read req) eqn:E.
  - now rewrite read_keeps_state.
  - destruct req; try discriminate. simpl.
    destruct (publish_cases node_type self) as [[_ ->]|[Hnone ->]]; simpl; auto.
    now apply with_published_keyed.
Qed.

Lemma run_keyed (trace : list (Z * request)) (self : NodeRegistry) :
  store_keyed self -> store_keyed (run trace self).
Proof.
  revert self. induction trace as [|[now req] trace IH]; intros self H; simpl; auto.
  apply IH. now apply handle_keyed.
Qed.

Lemma init_keyed (name ver : string) : store_keyed (__init__ name ver).
Proof. split; simpl; constructor. Qed.

Lemma store_keyed_get (self : NodeRegistry) (k : string * string) (x : NodeType) :
  store_keyed self -> Dict.get k (_store self) = Some x ->
  node_type_id x = fst k /\ version x = snd k.
Proof.
  intros [Hall _] Hget. apply dict_get_elem in Hget.
  rewrite Forall_forall in Hall.
  apply Hall in Hget. simpl in Hget. subst k. auto.
Qed.

(** ** Resolution of the latest version *)

Lemma keyed_app (l1 l2 : list (string * option semver_key)) :
  keyed (l1 ++ l2) = keyed l1 ++ keyed l2.
Proof.
  induction l1 as [|[v [k|]] l1 IH]; simpl; auto. now rewrite IH.
Qed.

Lemma keyed_elem (vs : list string) (v : string) (k : semver_key) :
  (v, k) ∈ keyed (map with_key vs) <-> v ∈ vs /\ _semver_key v = Some k.
Proof.
  induction vs as [|w vs IH]; simpl.
  - split; [intros H; inversion H|intros [H _]; inversion H].
  - unfold with_key at 1. destruct (_semver_key w) as [kw|] eqn:E.
    + rewrite !elem_of_cons, IH. split.
      * intros [[= -> ->]|[? ?]]; auto.
      * intros [[->|?] ?]; auto. left. congruence.
    + rewrite elem_of_cons, IH. split.
      * intros [? ?]; auto.
      * intros [[->|?] ?]; auto. congruence.
Qed.

Lemma keyed_nil (vs : list string) :
  keyed (map with_key vs) = [] <-> forall v, v ∈ vs -> _semver_key v = None.
Proof.
  split.
  - intros Hnil v Hv. destruct (_semver_key v) as [k|] eqn:E; auto.
    assert (H : (v, k) ∈ keyed (map with_key vs)) by (apply keyed_elem; auto).
    rewrite Hnil in H. inversion H.
  - intros Hall. destruct (keyed (map with_key vs)) as [|[v k] l] eqn:E; auto.
    assert (H : (v, k) ∈ keyed (map with_key vs)) by (rewrite E; left).
    apply keyed_elem in H as [Hv Hk]. rewrite (Hall _ Hv) in Hk. discriminate.
Qed.

Lemma keyed_split (vs : list string) : forall s1 s2 v k,
  keyed (map with_key vs) = s1 ++ (v, k) :: s2 ->
  exists l1 l2,
    vs = l1 ++ v :: l2 /\ _semver_key v = Some k
    /\ keyed (map with_key l1) = s1 /\ keyed (map with_key l2) = s2.
Proof.
  induction vs as [|w vs IH]; intros s1 s2 v k; simpl.
  - intros H. destruct s1; discriminate.
  - unfold with_key at 1. destruct (_semver_key w) as [kw|] eqn:E.
    + destruct s1 as [|[w' kw'] s1]; simpl; intros [= -> -> H].
      * exists [], vs. simpl. auto.
      * destruct (IH _ _ _ _ H) as (l1 & l2 & -> & Hk & <- & <-).
        exists (w' :: l1), l2. simpl. unfold with_key at 1. now rewrite E.
    + intros H. destruct (IH _ _ _ _ H) as (l1 & l2 & -> & Hk & <- & <-).
      exists (w :: l1), l2. simpl. unfold with_key at 1. now rewrite E.
Qed.

Lemma latest_version_unfold (i : string) (self : NodeRegistry) :
  latest_version i self
  = match published_versions self i with
    | [] => Raise (not_found_id i)
    | _ :: _ =>
        match keyed (map with_key (published_versions self i)) with
        | _ :: _ =>
            match Py.max snd key_lt (keyed (map with_key (published_versions self i))) with
            | Some item => Return (fst item)
            | None => Raise ValueError
            end
        | [] =>
            match last (Py.sorted id Py.str_lt (published_versions self i)) with
            | Some v => Return v
            | None => Raise IndexError
            end
        end
    end.
Proof. reflexivity. Qed.

(** With a parsing version on record, the answer is the first version, in
    the order of publication, whose key is the greatest. *)
Lemma latest_version_semver (i : string) (self : NodeRegistry) :
  (exists v, v ∈ published_versions self i /\ is_Some (_semver_key v)) ->
  exists v k l1 l2,
    latest_version i self = Return v
    /\ _semver_key v = Some k
    /\ published_versions self i = l1 ++ v :: l2
    /\ (forall w kw, w ∈ l1 -> _semver_key w = Some kw -> key_lt kw k = true)
    /\ (forall w kw, w ∈ l2 -> _semver_key w = Some kw -> key_lt k kw = false).
Proof.
  intros (v0 & Hv0 & [k0 Hk0]). rewrite latest_version_unfold.
  destruct (published_versions self i) as [|v1 vs] eqn:Evs; [inversion Hv0|].
  assert (H0 : (v0, k0) ∈ keyed (map with_key (v1 :: vs))) by (apply keyed_elem; auto).
  destruct (keyed (map with_key (v1 :: vs))) as [|item0 items] eqn:Ekeyed;
    [inversion H0|].
  destruct (max_is_Some snd key_lt (item0 :: items)) as [[v k] Hmax]; [discriminate|].
  rewrite Hmax.
  apply (max_first_greatest _ _ key_lt_order) in Hmax as (s1 & s2 & Hsplit & H1 & H2).
  rewrite <- Ekeyed in Hsplit.
  apply keyed_split in Hsplit as (l1 & l2 & Hvs & Hk & <- & <-).
  exists v, k, l1, l2. simpl. repeat split; auto.
  - intros w kw Hw Hkw.
    assert (H : (w, kw) ∈ keyed (map with_key l1)) by (apply keyed_elem; auto).
    rewrite Forall_forall in H1. apply (H1 _ H).
  - intros w kw Hw Hkw.
    assert (H : (w, kw) ∈ keyed (map with_key l2)) by (apply keyed_elem; auto).
    rewrite Forall_forall in H2. apply (H2 _ H).
Qed.

(** With no parsing version on record, the answer is the greatest of the
    recorded strings. *)
Lemma latest_version_fallback (i : string) (self : NodeRegistry) :
  published_versions self i <> [] ->
  (forall v, v ∈ published_versions self i -> _semver_key v = None) ->
  exists v,
    latest_version i self = Return v
    /\ v ∈ published_versions self i
    /\ forall w, w ∈ published_versions self i -> Py.str_lt v w = false.
Proof.
  intros Hne Hall. rewrite latest_version_unfold.
  destruct (published_versions self i) as [|v1 vs] eqn:Evs; [congruence|].
  apply keyed_nil in Hall. rewrite Hall.
  destruct (last (Py.sorted id Py.str_lt (v1 :: vs))) as [v|] eqn:Elast.
  - exists v. split; auto.
    apply (sorted_last_greatest id Py.str_lt str_lt_order) in Elast. exact Elast.
  - apply last_None in Elast. now apply sorted_nonempty in Elast.
Qed.

Lemma latest_version_empty (i : string) (self : NodeRegistry) :
  published_versions self i = [] -> latest_version i self = Raise (not_found_id i).
Proof. intros H. rewrite latest_version_unfold, H. reflexivity. Qed.

(** Whenever a version is on record, the answer is one of the recorded
    versions. *)
Lemma latest_version_recorded (i : string) (self : NodeRegistry) :
  published_versions self i <> [] ->
  exists v, latest_version i self = Return v /\ v ∈ published_versions self i.
Proof.
  intros Hne.
  destruct (keyed (map with_key (published_versions self i))) as [|[v0 k0] l] eqn:E.
  - destruct (latest_version_fallback i self Hne) as (v & Hv & Hin & _).
    + now apply keyed_nil.
    + eauto.
  - destruct (latest_version_semver i self) as (v & k & l1 & l2 & Hv & _ & Hvs & _).
    + assert (H : (v0, k0) ∈ keyed (map with_key (published_versions self i)))
        by (rewrite E; left).
      apply keyed_elem in H as [H1 H2]. exists v0. split; eauto.
    + exists v. split; auto. rewrite Hvs. apply elem_of_app. right. left.
Qed.


Lemma get_node_type_latest (i : string) (self : NodeRegistry) (v : string) :
  latest_version i self = Return v ->
  get_node_type i None self = get_node_type i (Some v) self.
Proof. intros H. unfold get_node_type. now rewrite H. Qed.

Lemma get_node_type_explicit (i v : string) (self : NodeRegistry) :
  get_node_type i (Some v) self
  = match Dict.get (i, v) (_store self) with
    | None => (Raise (not_found_version i v), self)
    | Some node_type => (Return node_type, self)
    end.
Proof. reflexivity. Qed.

(** ** The key order is the specified order of semantic versions *)

Lemma codepoint_lex_lt_compare (s t : string) :
  String.compare s t = Lt <-> codepoint_lex_lt s t.
Proof.
  split.
  - revert t. induction s as [|c s IH]; intros [|d t]; simpl; try discriminate.
    + constructor.
    + unfold Ascii.compare. destruct (N.compare _ _) eqn:E; try discriminate.
      * apply N.compare_eq in E.
        assert (c = d) as ->.
        { rewrite <- (ascii_N_embedding c), <- (ascii_N_embedding d). congruence. }
        intros H. apply lex_tail. auto.
      * intros _. apply lex_head. now apply N.compare_lt_iff.
  - induction 1 as [c t|c d s t H|c s t H IH]; simpl; auto.
    + unfold Ascii.compare. apply N.compare_lt_iff in H.
      unfold Py.code in H. now rewrite H.
    + unfold Ascii.compare. now rewrite N.compare_refl.
Qed.

Lemma str_lt_lex (s t : string) : Py.str_lt s t = true <-> codepoint_lex_lt s t.
Proof.
  rewrite <- codepoint_lex_lt_compare. unfold Py.str_lt, String.ltb.
  destruct (String.compare s t); split; congruence.
Qed.


Lemma identifier_lt_compare (x y : prerelease_part) :
  part_compare x y = Lt <-> identifier_lt x y.
Proof.
  split.
  - destruct x as [m|s], y as [n|t]; simpl; try discriminate; intros H.
    + constructor. now apply N.compare_lt_iff.
    + constructor.
    + constructor. now apply codepoint_lex_lt_compare.
  - intros [m n H| |s t H]; simpl.
    + now apply N.compare_lt_iff.
    + reflexivity.
    + now apply codepoint_lex_lt_compare.
Qed.

Lemma prerelease_lt_compare (p q : list prerelease_part) :
  Py.seq_compare part_compare p q = Lt <-> prerelease_lt p q.
Proof.
  destruct part_compare_order as [Heq Hrefl _ _]. split.
  - revert q. induction p as [|x p IH]; intros [|y q]; simpl; try discriminate.
    + constructor.
    + destruct (part_compare x y) eqn:E; try discriminate.
      * apply Heq in E as ->. intros H. apply common_head. auto.
      * intros _. apply first_difference. now apply identifier_lt_compare.
  - induction 1 as [y q|x y p q H|x p q H IH]; simpl; auto.
    + apply identifier_lt_compare in H. now rewrite H.
    + now rewrite Hrefl.
Qed.

Lemma N_compare_cases (a b : N) :
  (N.compare a b = Lt /\ (a < b)%N) \/ (N.compare a b = Eq /\ a = b)
  \/ (N.compare a b = Gt /\ (b < a)%N).
Proof.
  destruct (N.compare_spec a b); auto.
Qed.

Lemma semver_lt_key_compare (k1 k2 : semver_key) :
  key_shape k1 -> key_shape k2 ->
  key_compare k1 k2 = Lt <-> semver_lt (semver_of_key k1) (semver_of_key k2).
Proof.
  destruct k1 as [[[[a1 a2] a3] f1] p1], k2 as [[[[b1 b2] b3] f2] p2].
  unfold key_shape. intros Hs1 Hs2. unfold key_compare, Py.lex. split.
  - destruct (N_compare_cases a1 b1) as [[-> H1]|[[-> ->]|[-> H1]]];
      try discriminate; [intros _; now apply by_major|].
    destruct (N_compare_cases a2 b2) as [[-> H2]|[[-> ->]|[-> H2]]];
      try discriminate; [intros _; now apply by_minor|].
    destruct (N_compare_cases a3 b3) as [[-> H3]|[[-> ->]|[-> H3]]];
      try discriminate; [intros _; now apply by_patch|].
    destruct Hs1 as [[-> ->]| ->], Hs2 as [[-> ->]| ->]; simpl; try discriminate.
    + intros _. now apply (prerelease_below_release _ _ p1).
    + intros H. apply (by_prerelease _ _ p1 p2); auto.
      now apply prerelease_lt_compare.
  - intros [H|H1 H|H1 H2 H|p H1 H2 H3 Hp Hq|p q H1 H2 H3 Hp Hq H]; simpl in *.
    + apply N.compare_lt_iff in H. now rewrite H.
    + subst. rewrite N.compare_refl. apply N.compare_lt_iff in H. now rewrite H.
    + subst. rewrite !N.compare_refl. apply N.compare_lt_iff in H. now rewrite H.
    + subst. rewrite !N.compare_refl.
      destruct Hs1 as [[-> ->]| ->], Hs2 as [[-> ->]| ->]; simpl in *;
        try discriminate. reflexivity.
    + subst. rewrite !N.compare_refl.
      destruct Hs1 as [[-> ->]| ->], Hs2 as [[-> ->]| ->]; simpl in *;
        try discriminate. injection Hp as <-. injection Hq as <-.
      now apply prerelease_lt_compare.
Qed.



Lemma semver_lt_irrefl_on_keys (k : semver_key) :
  key_shape k -> ~ semver_lt (semver_of_key k) (semver_of_key k).
Proof.
  intros Hs H. apply semver_lt_key_compare in H; auto.
  destruct key_compare_order as [_ Hrefl _ _]. rewrite Hrefl in H. discriminate.
Qed.

Lemma semver_lt_asym_on_keys (k1 k2 : semver_key) :
  key_shape k1 -> key_shape k2 ->
  semver_lt (semver_of_key k1) (semver_of_key k2) ->
  ~ semver_lt (semver_of_key k2) (semver_of_key k1).
Proof.
  intros Hs1 Hs2 H12 H21.
  apply semver_lt_key_compare in H12, H21; auto.
  destruct key_compare_order as [_ _ Hopp _].
  rewrite Hopp, H12 in H21. discriminate.
Qed.

(** Every state reached from a new registry satisfies both invariants. *)
Lemma reachable_invariants (self : NodeRegistry) :
  reachable self -> registry_inv self /\ store_keyed self.
Proof.
  intros (name & ver & trace & ->). split.
  - apply run_inv, init_inv.
  - apply run_keyed, init_keyed.
Qed.

Lemma reachable_registry_with (versions : list string) :
  reachable (registry_with versions).
Proof. unfold registry_with, fresh_registry. repeat eexists. Qed.

(** ** The claims on publishing and on the invariant *)

(** C2.  Publishing a NodeType whose [(node_type_id, version)] is already a
    key of the store raises the error with code [node_type_already_exists],
    status 409 and a message that names the identifier and the version, and
    the registry state (store and version index alike) is the one before
    the call. *)
Theorem publish_existing_already_exists (self : NodeRegistry) (node_type : NodeType) :
  is_Some (Dict.get (node_type_id node_type, version node_type) (_store self)) ->
  publish_node_type node_type self
  = (Raise (ArpServerError "node_type_already_exists"
              ("NodeType '" +:+ node_type_id node_type +:+ "@"
                 +:+ version node_type +:+ "' already exists")
              409),
     self).
Proof. intros H. now rewrite publish_conflict. Qed.

Lemma publish_existing_already_exists_witness :
  is_Some (Dict.get ("atomic.echo", "0.2.0") (_store (registry_with ["0.2.0"; "0.10.0"])))
  /\ publish_node_type (echo "0.2.0") (registry_with ["0.2.0"; "0.10.0"])
     = (Raise (ArpServerError "node_type_already_exists"
                 "NodeType 'atomic.echo@0.2.0' already exists" 409),
        registry_with ["0.2.0"; "0.10.0"]).
Proof.
  split.
  - vm_compute. eauto.
  - apply (publish_existing_already_exists
             (registry_with ["0.2.0"; "0.10.0"]) (echo "0.2.0")).
    vm_compute. eauto.
Defined.

(** C3.  The invariant "every version in [_versions[i]] has an entry in the
    store under [(i, version)]" holds of the state that [__init__] builds
    and is kept by every request; a publish either changes neither
    dictionary, or adds the store entry and appends the version in the one
    step. *)
Theorem registry_inv_invariant :
  (forall name ver, registry_inv (__init__ name ver))
  /\ (forall now req self,
        registry_inv self -> registry_inv (snd (handle now req self)))
  /\ (forall node_type self,
        let i := node_type_id node_type in
        let v := version node_type in
        match publish_node_type node_type self with
        | (Return _, self') =>
            Dict.get (i, v) (_store self) = None
            /\ Dict.get (i, v) (_store self') = Some node_type
            /\ published_versions self' i = published_versions self i ++ [v]
        | (Raise _, self') => self' = self
        end).
Proof.
  split; [exact init_inv|]. split; [exact handle_inv|].
  intros node_type self i v.
  destruct (publish_cases node_type self) as [[_ ->]|[Hnone ->]]; auto.
  split; [exact Hnone|]. split.
  - simpl. apply dict_get_set_eq.
  - unfold published_versions, with_published. simpl.
    now rewrite lookup_insert_eq.
Qed.

Lemma registry_inv_invariant_witness :
  registry_inv (registry_with ["0.2.0"])
  /\ registry_inv
       (snd (handle 0 (PublishNodeTypeRequest (echo "0.10.0"))
               (registry_with ["0.2.0"]))).
Proof.
  assert (H : registry_inv (registry_with ["0.2.0"])) by (apply (bool_decide_unpack _); vm_compute; exact I).
  split; [exact H|].
  apply (proj1 (proj2 registry_inv_invariant)), H.
Defined.

(** C4.  A successful publish returns the NodeType it was given, and from
    then on, whatever requests are served in between, [get_node_type] with
    that identifier and version returns that same NodeType. *)
Theorem publish_get_round_trip (self self' : NodeRegistry)
    (node_type returned : NodeType) (trace : list (Z * request)) :
  publish_node_type node_type self = (Return returned, self') ->
  returned = node_type
  /\ get_node_type (node_type_id node_type) (Some (version node_type))
       (run trace self')
     = (Return node_type, run trace self').
Proof.
  intros Hpub.
  destruct (publish_cases node_type self) as [[_ H]|[Hnone H]];
    rewrite H in Hpub; [discriminate|].
  injection Hpub as <- <-. split; [reflexivity|].
  rewrite get_node_type_explicit.
  rewrite (run_store_grows trace _ _ node_type); [reflexivity|].
  simpl. apply dict_get_set_eq.
Qed.

Lemma publish_get_round_trip_witness :
  get_node_type "atomic.echo" (Some "0.10.0")
    (run [(5%Z, PublishNodeTypeRequest (echo "0.11.0")); (6%Z, HealthRequest)]
       (registry_with ["0.2.0"; "0.10.0"]))
  = (Return (echo "0.10.0"),
     run [(5%Z, PublishNodeTypeRequest (echo "0.11.0")); (6%Z, HealthRequest)]
       (registry_with ["0.2.0"; "0.10.0"])).
Proof.
  apply (publish_get_round_trip (registry_with ["0.2.0"]) _ (echo "0.10.0")
           (echo "0.10.0")).
  vm_compute. reflexivity.
Defined.

(** ** The claims on [get_node_type] *)












(** The three spellings of 1.0.0 have one key, and the first published of
    them is the answer. *)
Example equal_keys_first_published :
  _semver_key "v1.0.0" = _semver_key "1.0.0"
  /\ _semver_key "1.0.0+build.7" = _semver_key "1.0.0"
  /\ fst (get_node_type "atomic.echo" None
            (registry_with ["0.9.0"; "v1.0.0"; "1.0.0"; "1.0.0+build.7"]))
     = Return (echo "v1.0.0")
  /\ fst (get_node_type "atomic.echo" None
            (registry_with ["1.0.0+build.7"; "1.0.0"; "v1.0.0"]))
     = Return (echo "1.0.0+build.7").
Proof. vm_compute. auto. Qed.

(** ** Strings: trimming, lower case, substrings *)

Lemma lstrip_all_space (s : string) : Py.lstrip s = "" <-> all_space s.
Proof.
  induction s as [|c s IH]; simpl; [tauto|].
  destruct (Py.is_space c); [rewrite IH; tauto|].
  split; [discriminate|]. intros [? _]. discriminate.
Qed.

Lemma rstrip_all_space (s : string) : Py.rstrip s = "" <-> all_space s.
Proof.
  induction s as [|c s IH]; simpl; [tauto|].
  destruct (Py.rstrip s) eqn:E.
  - destruct (Py.is_space c); [tauto|].
    split; [discriminate|]. intros [? _]. discriminate.
  - split; [discriminate|]. intros [_ H]. apply IH in H. discriminate.
Qed.

Lemma lstrip_keeps_space (s : string) : all_space s -> all_space (Py.lstrip s).
Proof.
  induction s as [|c s IH]; simpl; auto.
  intros [Hc Hs]. rewrite Hc. auto.
Qed.

Lemma lstrip_not_space (s : string) : all_space (Py.lstrip s) -> all_space s.
Proof.
  induction s as [|c s IH]; simpl; auto.
  destruct (Py.is_space c) eqn:E; [auto|]. simpl. rewrite E. intros [? _]. discriminate.
Qed.

(** Trimming leaves nothing exactly when the string is empty or made of
    whitespace only. *)
Lemma strip_all_space (s : string) : Py.strip s = "" <-> all_space s.
Proof.
  unfold Py.strip. rewrite rstrip_all_space. split.
  - apply lstrip_not_space.
  - apply lstrip_keeps_space.
Qed.

Lemma lower_empty (s : string) : Py.lower s = "" <-> s = "".
Proof. destruct s; simpl; split; congruence. Qed.

Lemma lower_app (a b : string) : Py.lower (a +:+ b) = Py.lower a +:+ Py.lower b.
Proof. induction a as [|c a IH]; simpl; [reflexivity|]. now rewrite IH. Qed.

Lemma lower_app_inv (s a b : string) :
  Py.lower s = a +:+ b ->
  exists s1 s2, s = s1 +:+ s2 /\ Py.lower s1 = a /\ Py.lower s2 = b.
Proof.
  revert s. induction a as [|c a IH]; intros s; simpl.
  - intros H. exists "", s. auto.
  - destruct s as [|d s]; simpl; [discriminate|].
    intros [= Hc H]. destruct (IH _ H) as (s1 & s2 & -> & <- & <-).
    exists (String d s1), s2. simpl. rewrite Hc. auto.
Qed.

Lemma startswith_spec (a b : string) :
  Py.startswith a b = true <-> exists rest, b = a +:+ rest.
Proof.
  revert b. induction a as [|c a IH]; intros b; simpl.
  - split; eauto.
  - destruct b as [|d b].
    + split; [discriminate|]. intros [rest H]. discriminate.
    + rewrite andb_true_iff, IH, Ascii.eqb_eq. split.
      * intros [-> [rest ->]]. eauto.
      * intros [rest [= -> ->]]. eauto.
Qed.

Lemma contains_spec (a b : string) :
  Py.contains a b = true <-> exists before after, b = before +:+ a +:+ after.
Proof.
  induction b as [|d b IH].
  - simpl. rewrite orb_false_r, startswith_spec. split.
    + intros [rest H]. exists "", rest. exact H.
    + intros (before & after & H). destruct before; simpl in H; [eauto|discriminate].
  - cbn [Py.contains]. rewrite orb_true_iff, startswith_spec, IH. split.
    + intros [[rest H]|(before & after & H)].
      * exists "", rest. exact H.
      * exists (String d before), after. simpl. now rewrite H.
    + intros (before & after & H). destruct before as [|c before]; simpl in H.
      * left. eauto.
      * right. injection H as -> ->. eauto.
Qed.

(** The substring test on the lowered strings is the occurrence up to
    case. *)
Lemma contains_lower (t s : string) :
  Py.contains (Py.lower t) (Py.lower s) = true <-> occurs_ignoring_case t s.
Proof.
  rewrite contains_spec. unfold occurs_ignoring_case, same_ignoring_case. split.
  - intros (before & after & H).
    apply lower_app_inv in H as (s1 & s23 & -> & <- & H).
    apply lower_app_inv in H as (s2 & s3 & -> & H & <-).
    exists s1, s2, s3. auto.
  - intros (before & found & after & -> & H).
    exists (Py.lower before), (Py.lower after).
    now rewrite !lower_app, H.
Qed.

(** ** Listing *)

Lemma list_loop_filter (q : string) (kind_ : option NodeKind)
    (values out : list NodeType) :
  list_loop q kind_ values out = out ++ List.filter (kept q kind_) values.
Proof.
  revert out. induction values as [|x values IH]; intros out; simpl.
  - now rewrite app_nil_r.
  - unfold kept at 1.
    destruct (negb (String.eqb q "") && negb (Py.contains q (Py.lower (node_type_id x))));
      simpl; [apply IH|].
    destruct (match kind_ with Some k => _ | None => false end); simpl; [apply IH|].
    rewrite IH, <- app_assoc. reflexivity.
Qed.


Lemma kept_query (q : option string) (i : string) :
  negb (String.eqb (Py.lower (Py.strip (Py.or_str q ""))) "")
  && negb (Py.contains (Py.lower (Py.strip (Py.or_str q ""))) (Py.lower i)) = false
  <-> query_selects q i.
Proof.
  rewrite andb_false_iff, !negb_false_iff.
  rewrite String.eqb_eq, lower_empty, contains_lower, strip_all_space.
  destruct q as [[|c t]|]; simpl.
  - split; auto.
  - reflexivity.
  - split; auto.
Qed.

Lemma kept_kind (kind_ : option NodeKind) (x : NodeType) :
  match kind_ with
  | Some k => negb (bool_decide (kind x = k))
  | None => false
  end = false <-> kind_selects kind_ x.
Proof.
  destruct kind_ as [k|]; simpl; [|tauto].
  rewrite negb_false_iff, bool_decide_eq_true. reflexivity.
Qed.

Lemma kept_selected (q : option string) (kind_ : option NodeKind) (x : NodeType) :
  kept (Py.lower (Py.strip (Py.or_str q ""))) kind_ x = true <-> selected q kind_ x.
Proof.
  unfold kept, selected.
  rewrite andb_true_iff, !negb_true_iff, kept_query, kept_kind. reflexivity.
Qed.




(** ** Reads *)

Lemma run_reads (trace : list (Z * request)) (self : NodeRegistry) :
  Forall (fun step => is_read (snd step) = true) trace -> run trace self = self.
Proof.
  induction 1 as [|[now req] trace Hreq _ IH]; simpl; auto.
  now rewrite read_keeps_state.
Qed.

Lemma read_ignores_clock (now1 now2 : Z) (req : request) (self : NodeRegistry) :
  req <> HealthRequest -> handle now1 req self = handle now2 req self.
Proof. destruct req; simpl; congruence. Qed.

(** C8, as stated, fails: two [health] calls on the same state, with
    nothing in between, give different results when the clock has moved
    from 0 to 1. *)
Lemma health_results_differ :
  is_read HealthRequest = true
  /\ fst (handle 1 HealthRequest (snd (handle 0 HealthRequest fresh_registry)))
     <> fst (handle 0 HealthRequest fresh_registry).
Proof. split; [reflexivity|]. vm_compute. discriminate. Qed.

(** C8, amended.  No read changes the registry state, so any sequence of
    reads leaves it as it was.  With only reads in between, a repeated
    version-info, get or list request gives the result of the first call;
    a repeated health request gives status [ok] with the clock reading of
    its own call. *)
Theorem reads_idempotent (now1 now2 : Z) (req : request)
    (trace : list (Z * request)) (self : NodeRegistry) :
  is_read req = true ->
  Forall (fun step => is_read (snd step) = true) trace ->
  snd (handle now1 req self) = self
  /\ run trace (snd (handle now1 req self)) = self
  /\ (req <> HealthRequest ->
        fst (handle now2 req (run trace (snd (handle now1 req self))))
        = fst (handle now1 req self))
  /\ (req = HealthRequest ->
        fst (handle now2 req (run trace (snd (handle now1 req self))))
        = Return (HealthResponse {| status := ok; time := now2 |})).
Proof.
  intros Hreq Htrace.
  rewrite (read_keeps_state now1 req self Hreq), (run_reads trace self Htrace).
  repeat split.
  - intros Hne. now rewrite (read_ignores_clock now2 now1).
  - intros ->. reflexivity.
Qed.

Lemma reads_idempotent_witness :
  fst (handle 7 (GetNodeTypeRequest "atomic.echo" None)
         (run [(3%Z, HealthRequest); (4%Z, ListNodeTypesRequest (Some "echo") None)]
            (snd (handle 2 (GetNodeTypeRequest "atomic.echo" None)
                    (registry_with ["0.2.0"; "0.10.0"])))))
  = fst (handle 2 (GetNodeTypeRequest "atomic.echo" None)
           (registry_with ["0.2.0"; "0.10.0"])).
Proof.
  refine (proj1 (proj2 (proj2
            (reads_idempotent 2 7 (GetNodeTypeRequest "atomic.echo" None)
               [(3%Z, HealthRequest); (4%Z, ListNodeTypesRequest (Some "echo") None)]
               (registry_with ["0.2.0"; "0.10.0"]) _ _))) _).
  - reflexivity.
  - repeat constructor.
  - discriminate.
Defined.

(** ** The pattern accepts the shape, and one final newline *)

Lemma or_else_None {A} (a : option A) : Re.or_else a None = a.
Proof. now destruct a. Qed.

Lemma or_else_Some {A} (a b : option A) (x : A) :
  Re.or_else a b = Some x -> a = Some x \/ (a = None /\ b = Some x).
Proof. destruct a; simpl; auto. Qed.

Lemma star_max p s k : rejects p k -> Re.star p s k = k (drop_while p s).
Proof.
  intros Hk. induction s as [|c s IH]; simpl; auto.
  destruct (p c) eqn:E; auto.
  rewrite IH. destruct (k (drop_while p s)); simpl; auto.
Qed.

Lemma drop_while_app p a b :
  all_in p a = true -> starts_outside p b -> drop_while p (a +:+ b) = b.
Proof.
  intros Ha Hb. induction a as [|c a IH]; simpl in *.
  - destruct b as [|d b]; simpl in *; auto. now rewrite Hb.
  - apply andb_true_iff in Ha as [-> Ha]. auto.
Qed.

Lemma star_inv p s k g :
  Re.star p s k = Some g ->
  exists a b, s = a +:+ b /\ all_in p a = true /\ k b = Some g.
Proof.
  revert g. induction s as [|c s IH]; simpl; intros g H.
  - exists "", "". auto.
  - destruct (p c) eqn:E.
    + apply or_else_Some in H as [H|[_ H]].
      * destruct (IH _ H) as (a & b & -> & Ha & Hb).
        exists (String c a), b. simpl. rewrite E. auto.
      * exists "", (String c s). auto.
    + exists "", (String c s). auto.
Qed.

Lemma length_append (a b : string) :
  String.length (a +:+ b) = String.length a + String.length b.
Proof. induction a; simpl; auto. Qed.

Lemma substring_prefix (a b : string) :
  String.substring 0 (String.length a) (a +:+ b) = a.
Proof.
  induction a as [|c a IH]; simpl.
  - destruct b; reflexivity.
  - now rewrite IH.
Qed.

Lemma taken_app (a b : string) : Re.taken (a +:+ b) b = a.
Proof.
  unfold Re.taken. rewrite length_append.
  replace (String.length a + String.length b - String.length b)
    with (String.length a) by lia.
  apply substring_prefix.
Qed.

Lemma taken_cons (c : ascii) (a b : string) :
  Re.taken (String c (a +:+ b)) b = String c a.
Proof. apply (taken_app (String c a) b). Qed.

Lemma taken_one (c : ascii) (b : string) : Re.taken (String c b) b = String c "".
Proof. apply (taken_app (String c "") b). Qed.


(** A fact about one character, by cases on its eight bits. *)
Ltac by_cases_on c :=
  destruct c as [[] [] [] [] [] [] [] []]; vm_compute; intros; congruence.

Lemma digit_not_dot c : Py.is_ascii_digit c = true -> Ascii.eqb "." c = false.
Proof. by_cases_on c. Qed.

Lemma digit_not_dash c : Py.is_ascii_digit c = true -> Ascii.eqb "-" c = false.
Proof. by_cases_on c. Qed.

Lemma digit_class c : Py.is_ascii_digit c = true -> semver_class c = true.
Proof. by_cases_on c. Qed.

Lemma digit_not_v c : Py.is_ascii_digit c = true -> Ascii.eqb "v" c = false.
Proof. by_cases_on c. Qed.

Lemma class_not_plus c : semver_class c = true -> Ascii.eqb "+" c = false.
Proof. by_cases_on c. Qed.

Lemma class_not_newline c : semver_class c = true -> Ascii.eqb c "010" = false.
Proof. by_cases_on c. Qed.

Lemma nonzero_digit c : Py.in_range 49 57 c = true -> Py.is_ascii_digit c = true.
Proof. by_cases_on c. Qed.

Lemma nonzero_not_zero c : Py.in_range 49 57 c = true -> Ascii.eqb "0" c = false.
Proof. by_cases_on c. Qed.

Lemma zero_not_nonzero : Py.in_range 49 57 "0" = false.
Proof. reflexivity. Qed.

Section Pattern.

Variable subject : string.

Local Abbreviation run := (Re.run subject).

Let K : string -> Re.groups -> option Re.groups := fun _ gs => Some gs.

Lemma run_seq r1 r2 s gs k :
  run (Re.Seq r1 r2) s gs k = run r1 s gs (fun s' gs' => run r2 s' gs' k).
Proof. reflexivity. Qed.

Lemma run_opt r s gs k :
  run (Re.Opt r) s gs k = Re.or_else (run r s gs k) (k s gs).
Proof. reflexivity. Qed.

Lemma run_alt r1 r2 s gs k :
  run (Re.Alt r1 r2) s gs k = Re.or_else (run r1 s gs k) (run r2 s gs k).
Proof. reflexivity. Qed.

Lemma run_group i r s gs k :
  run (Re.Group i r) s gs k
  = run r s gs (fun s' gs' => k s' ((i, Re.taken s s') :: gs')).
Proof. reflexivity. Qed.

Lemma run_lit_inv c s gs k g :
  run (Re.lit c) s gs k = Some g -> exists rest, s = String c rest /\ k rest gs = Some g.
Proof.
  simpl. destruct s as [|d s]; [discriminate|].
  destruct (Ascii.eqb c d) eqn:E; [|discriminate].
  apply Ascii.eqb_eq in E as ->. eauto.
Qed.

Lemma run_lit_fail c d s gs k :
  Ascii.eqb c d = false -> run (Re.lit c) (String d s) gs k = None.
Proof. intros H. cbn [Re.run Re.lit]. now rewrite H. Qed.

Lemma run_lit_ok c s gs k : run (Re.lit c) (String c s) gs k = k s gs.
Proof. cbn [Re.run Re.lit]. now rewrite Ascii.eqb_refl. Qed.

Lemma run_number_inv i s gs k g :
  run (Re.Group i semver_number) s gs k = Some g ->
  exists M rest, s = M +:+ rest /\ numeric_field M /\ k rest ((i, M) :: gs) = Some g.
Proof.
  cbn [Re.run semver_number]. intros H. apply or_else_Some in H as [H|[_ H]].
  - apply run_lit_inv in H as (rest & -> & H).
    exists "0", rest. split; [reflexivity|]. split; [now left|].
    now rewrite taken_one in H.
  - destruct s as [|c s]; [discriminate|].
    destruct (Py.in_range 49 57 c) eqn:E; [|discriminate].
    apply star_inv in H as (a & b & -> & Ha & H).
    exists (String c a), b. split; [reflexivity|]. split.
    + right. eauto.
    + now rewrite taken_cons in H.
Qed.

Lemma run_number_fwd i M rest gs k g :
  numeric_field M -> starts_outside Py.is_ascii_digit rest ->
  (forall gs', rejects Py.is_ascii_digit (fun s => k s gs')) ->
  k rest ((i, M) :: gs) = Some g ->
  run (Re.Group i semver_number) (M +:+ rest) gs k = Some g.
Proof.
  intros HM Hrest Hk Hg. cbn [Re.run semver_number].
  destruct HM as [->|(c & digits & -> & Hc & Hdigits)].
  - change ("0" +:+ rest) with (String "0" rest).
    cbn [Re.lit Re.run]. change (Ascii.eqb "0" "0") with true. cbn iota.
    rewrite taken_one, Hg. reflexivity.
  - change (String c digits +:+ rest) with (String c (digits +:+ rest)).
    cbn [Re.lit Re.run].
    rewrite (nonzero_not_zero c Hc), Hc. cbn [Re.or_else].
    rewrite star_max.
    + rewrite (drop_while_app _ _ _ Hdigits Hrest).
      now rewrite taken_cons.
    + intros d s Hd. apply Hk. exact Hd.
Qed.

Lemma run_plus_inv p s gs k g :
  run (Re.Plus p) s gs k = Some g ->
  exists a b, s = a +:+ b /\ a <> "" /\ all_in p a = true /\ k b gs = Some g.
Proof.
  cbn [Re.run]. destruct s as [|c s]; [discriminate|].
  destruct (p c) eqn:E; [|discriminate]. intros H.
  apply star_inv in H as (a & b & -> & Ha & H).
  exists (String c a), b. cbn [all_in]. rewrite E, Ha. repeat split; try discriminate; auto.
Qed.

Lemma run_plus_fwd p a b gs k g :
  a <> "" -> all_in p a = true -> starts_outside p b ->
  rejects p (fun s => k s gs) -> k b gs = Some g ->
  run (Re.Plus p) (a +:+ b) gs k = Some g.
Proof.
  intros Hne Ha Hb Hk Hg. destruct a as [|c a]; [congruence|].
  change (String c a +:+ b) with (String c (a +:+ b)).
  cbn [all_in] in Ha. apply andb_true_iff in Ha as [Hc Ha].
  cbn [Re.run]. rewrite Hc, star_max by exact Hk.
  now rewrite (drop_while_app _ _ _ Ha Hb).
Qed.

Lemma run_eol_inv s gs k g :
  run Re.Eol s gs k = Some g ->
  (s = "" \/ s = String "010" "") /\ k s gs = Some g.
Proof.
  cbn [Re.run]. destruct s as [|c [|d s]]; try discriminate; auto.
  destruct (Ascii.eqb c "010") eqn:E; [|discriminate].
  apply Ascii.eqb_eq in E as ->. auto.
Qed.

Lemma run_eol_rejects gs k : rejects semver_class (fun s => run Re.Eol s gs k).
Proof.
  intros c s Hc. cbn [Re.run]. destruct s; auto.
  now rewrite (class_not_newline c Hc).
Qed.

Lemma last_line_outside (s : string) : last_line s -> starts_outside semver_class s.
Proof. intros [->| ->]; reflexivity. Qed.


Lemma tail_build_inv s gs g :
  run tail_build s gs K = Some g ->
  exists build rest,
    s = tagged "+" build +:+ rest /\ optional_run build /\ last_line rest /\ g = gs.
Proof.
  unfold tail_build. rewrite run_seq, run_opt, run_seq. intros H.
  apply or_else_Some in H as [H|[_ H]].
  - apply run_lit_inv in H as (s1 & -> & H).
    apply run_plus_inv in H as (a & b & -> & Hne & Ha & H).
    apply run_eol_inv in H as [Hb [= <-]].
    exists (Some a), b. repeat split; auto.
  - apply run_eol_inv in H as [Hb [= <-]].
    exists None, s. repeat split; auto.
Qed.

Lemma tail_build_fwd build rest gs :
  optional_run build -> last_line rest ->
  run tail_build (tagged "+" build +:+ rest) gs K = Some gs.
Proof.
  intros Hbuild Hrest. unfold tail_build. rewrite run_seq, run_opt, run_seq.
  destruct build as [t|]; cbn [tagged].
  - destruct Hbuild as [Hne Ht].
    change (String "+" t +:+ rest) with (String "+" (t +:+ rest)).
    rewrite run_lit_ok.
    rewrite (run_plus_fwd semver_class t rest gs _ gs); auto.
    + now apply last_line_outside.
    + apply run_eol_rejects.
    + destruct Hrest as [->| ->]; reflexivity.
  - change ("" +:+ rest) with rest.
    destruct Hrest as [->| ->]; reflexivity.
Qed.

Lemma tail_build_rejects gs : rejects semver_class (fun s => run tail_build s gs K).
Proof.
  intros c s Hc. unfold tail_build. rewrite run_seq, run_opt, run_seq.
  rewrite (run_lit_fail "+" c) by (now apply class_not_plus).
  apply (run_eol_rejects gs K c s Hc).
Qed.

Lemma tail_pre_inv s gs g :
  run tail_pre s gs K = Some g ->
  exists pre build rest,
    s = tagged "-" pre +:+ tagged "+" build +:+ rest
    /\ optional_run pre /\ optional_run build /\ last_line rest
    /\ g = pre_groups pre gs.
Proof.
  unfold tail_pre. rewrite run_seq, run_opt, run_seq. intros H.
  apply or_else_Some in H as [H|[_ H]].
  - apply run_lit_inv in H as (s1 & -> & H). rewrite run_group in H.
    apply run_plus_inv in H as (a & b & -> & Hne & Ha & H).
    apply tail_build_inv in H as (build & rest & -> & Hbuild & Hrest & ->).
    rewrite taken_app.
    exists (Some a), build, rest. repeat split; auto.
  - apply tail_build_inv in H as (build & rest & -> & Hbuild & Hrest & ->).
    exists None, build, rest. repeat split; auto.
Qed.

Lemma optional_outside (mark : ascii) (o : option string) (rest : string) :
  semver_class mark = false -> last_line rest ->
  starts_outside semver_class (tagged mark o +:+ rest).
Proof.
  intros Hmark Hrest. destruct o as [t|]; cbn [tagged].
  - exact Hmark.
  - now apply last_line_outside.
Qed.

Lemma tail_pre_fwd pre build rest gs :
  optional_run pre -> optional_run build -> last_line rest ->
  run tail_pre (tagged "-" pre +:+ tagged "+" build +:+ rest) gs K
  = Some (pre_groups pre gs).
Proof.
  intros Hpre Hbuild Hrest. unfold tail_pre. rewrite run_seq, run_opt, run_seq.
  destruct pre as [t|]; cbn [tagged pre_groups].
  - destruct Hpre as [Hne Ht].
    change (String "-" t +:+ tagged "+" build +:+ rest)
      with (String "-" (t +:+ tagged "+" build +:+ rest)).
    rewrite run_lit_ok, run_group.
    rewrite (run_plus_fwd semver_class t _ gs _ ((4, t) :: gs)); auto.
    + now apply optional_outside.
    + intros c s Hc. apply tail_build_rejects. exact Hc.
    + rewrite taken_app. now apply tail_build_fwd.
  - change ("" +:+ tagged "+" build +:+ rest) with (tagged "+" build +:+ rest).
    assert (E : run (Re.lit "-") (tagged "+" build +:+ rest) gs
                  (fun s' gs' =>
                     run (Re.Group 4 (Re.Plus semver_class)) s' gs'
                       (fun s'' gs'' => run tail_build s'' gs'' K)) = None).
    { destruct build as [t|]; cbn [tagged].
      - apply run_lit_fail. reflexivity.
      - destruct Hrest as [->| ->]; reflexivity. }
    rewrite E. cbn [Re.or_else]. now apply tail_build_fwd.
Qed.

Lemma tail_pre_rejects gs : rejects Py.is_ascii_digit (fun s => run tail_pre s gs K).
Proof.
  intros c s Hc. unfold tail_pre. rewrite run_seq, run_opt, run_seq.
  rewrite (run_lit_fail "-" c) by (now apply digit_not_dash).
  apply tail_build_rejects. now apply digit_class.
Qed.


Lemma dot_rejects r gs k :
  rejects Py.is_ascii_digit
    (fun s => run (Re.lit ".") s gs (fun s' gs' => run r s' gs' k)).
Proof. intros c s Hc. apply run_lit_fail. now apply digit_not_dot. Qed.

Lemma tail_numbers_inv s g :
  run tail_numbers s [] K = Some g ->
  exists M m p pre build rest,
    s = M +:+ "." +:+ m +:+ "." +:+ p +:+ tagged "-" pre +:+ tagged "+" build +:+ rest
    /\ numeric_field M /\ numeric_field m /\ numeric_field p
    /\ optional_run pre /\ optional_run build /\ last_line rest
    /\ g = match_groups M m p pre.
Proof.
  unfold tail_numbers. rewrite run_seq. intros H.
  apply run_number_inv in H as (M & s1 & -> & HM & H). rewrite run_seq in H.
  apply run_lit_inv in H as (s2 & -> & H). rewrite run_seq in H.
  apply run_number_inv in H as (m & s3 & -> & Hm & H). rewrite run_seq in H.
  apply run_lit_inv in H as (s4 & -> & H). rewrite run_seq in H.
  apply run_number_inv in H as (p & s5 & -> & Hp & H).
  apply tail_pre_inv in H as (pre & build & rest & -> & Hpre & Hbuild & Hrest & ->).
  exists M, m, p, pre, build, rest. repeat split; auto.
Qed.

Lemma tail_numbers_fwd M m p pre build rest :
  numeric_field M -> numeric_field m -> numeric_field p ->
  optional_run pre -> optional_run build -> last_line rest ->
  run tail_numbers
    (M +:+ "." +:+ m +:+ "." +:+ p +:+ tagged "-" pre +:+ tagged "+" build +:+ rest)
    [] K
  = Some (match_groups M m p pre).
Proof.
  intros HM Hm Hp Hpre Hbuild Hrest. unfold tail_numbers. rewrite run_seq.
  apply run_number_fwd; auto; [reflexivity|intros gs'; apply dot_rejects|].
  rewrite run_seq.
  change ("." +:+ m +:+ "." +:+ p +:+ tagged "-" pre +:+ tagged "+" build +:+ rest)
    with (String "." (m +:+ "." +:+ p +:+ tagged "-" pre +:+ tagged "+" build +:+ rest)).
  rewrite run_lit_ok, run_seq.
  apply run_number_fwd; auto; [reflexivity|intros gs'; apply dot_rejects|].
  rewrite run_seq.
  change ("." +:+ p +:+ tagged "-" pre +:+ tagged "+" build +:+ rest)
    with (String "." (p +:+ tagged "-" pre +:+ tagged "+" build +:+ rest)).
  rewrite run_lit_ok.
  apply run_number_fwd; auto.
  - destruct pre as [t|]; [reflexivity|].
    destruct build as [t|]; [reflexivity|].
    destruct Hrest as [->| ->]; reflexivity.
  - intros gs'. apply tail_pre_rejects.
  - now apply tail_pre_fwd.
Qed.

End Pattern.

Lemma append_assoc (a b c : string) : (a +:+ b) +:+ c = a +:+ b +:+ c.
Proof.
  induction a as [|x a IH]; [reflexivity|].
  change (String x ((a +:+ b) +:+ c) = String x (a +:+ b +:+ c)).
  now rewrite IH.
Qed.

Lemma semver_re_unfold (v : string) :
  Re.match_ _SEMVER_RE v
  = Re.or_else
      (Re.run v (Re.lit "v") v []
         (fun s gs => Re.run v tail_numbers s gs (fun _ gs' => Some gs')))
      (Re.run v tail_numbers v [] (fun _ gs' => Some gs')).
Proof.
  unfold Re.match_.
  change _SEMVER_RE
    with (Re.Seq Re.Bol (Re.Seq (Re.Opt (Re.lit "v")) tail_numbers)).
  rewrite run_seq. cbn [Re.run]. rewrite Nat.eqb_refl. reflexivity.
Qed.

Lemma numeric_field_starts (M rest : string) :
  numeric_field M ->
  exists c s, M +:+ rest = String c s /\ Py.is_ascii_digit c = true.
Proof.
  intros [->|(c & digits & -> & Hc & _)].
  - exists "0"%char, rest. split; reflexivity.
  - exists c, (digits +:+ rest). split; [reflexivity|]. now apply nonzero_digit.
Qed.

Lemma key_of_groups (M m p : string) (pre : option string) :
  match Re.group 1 (match_groups M m p pre), Re.group 2 (match_groups M m p pre),
        Re.group 3 (match_groups M m p pre) with
  | Some g1, Some g2, Some g3 =>
      match Re.group 4 (match_groups M m p pre) with
      | None => Some (Py.int g1, Py.int g2, Py.int g3, 1%N, [])
      | Some prerelease =>
          Some (Py.int g1, Py.int g2, Py.int g3, 0%N,
                map prerelease_part_of (Py.split "." prerelease))
      end
  | _, _, _ => None
  end = Some (key_of_fields M m p pre).
Proof. destruct pre; reflexivity. Qed.

(** A string of the shape [v]MAJOR.MINOR.PATCH[-PRERELEASE][+BUILD], alone
    or followed by one newline, has the key of its fields. *)

Lemma semver_text_key (body rest : string) (k : semver_key) :
  semver_text body k -> last_line rest -> _semver_key (body +:+ rest) = Some k.
Proof.
  intros [v M m p pre build Hv HM Hm Hp Hpre Hbuild] Hrest.
  unfold _semver_key. rewrite semver_re_unfold.
  rewrite !append_assoc.
  pose proof (tail_numbers_fwd (v +:+ M +:+ "." +:+ m +:+ "." +:+ p
                +:+ tagged "-" pre +:+ tagged "+" build +:+ rest)
                M m p pre build rest HM Hm Hp Hpre Hbuild Hrest) as Hrun.
  destruct Hv as [->| ->].
  - change ("" +:+ ?s) with s in *.
    destruct (numeric_field_starts M
                ("." +:+ m +:+ "." +:+ p +:+ tagged "-" pre +:+ tagged "+" build +:+ rest)
                HM) as (c & s & Hs & Hc).
    rewrite Hs at 2. rewrite run_lit_fail by (now apply digit_not_v).
    cbn [Re.or_else]. rewrite Hrun. apply key_of_groups.
  - change ("v" +:+ ?s) with (String "v" s) in *.
    rewrite run_lit_ok, Hrun. cbn [Re.or_else]. apply key_of_groups.
Qed.

Lemma append_empty (s : string) : s +:+ "" = s.
Proof.
  induction s as [|c s IH]; [reflexivity|].
  change (String c (s +:+ "") = String c s). now rewrite IH.
Qed.

Lemma semver_text_parses (version : string) (k : semver_key) :
  semver_text version k -> parse_semver version = Some (semver_of_key k).
Proof.
  intros H. unfold parse_semver.
  rewrite <- (append_empty version), (semver_text_key version "" k H); [reflexivity|].
  now left.
Qed.

(** Conversely, a string with a key is of that shape, alone or followed by
    one newline. *)

Lemma key_semver_text (version : string) (k : semver_key) :
  _semver_key version = Some k ->
  exists body rest,
    version = body +:+ rest /\ last_line rest /\ semver_text body k.
Proof.
  unfold _semver_key. rewrite semver_re_unfold.
  destruct (Re.or_else _ _) as [g|] eqn:E; [|discriminate].
  assert (H : exists v s, version = v +:+ s /\ (v = "" \/ v = "v")
                /\ Re.run version tail_numbers s [] (fun _ gs' => Some gs') = Some g).
  { apply or_else_Some in E as [E|[_ E]].
    - apply run_lit_inv in E as (s & Hs & E). exists "v", s. auto.
    - exists "", version. auto. }
  destruct H as (v & s & -> & Hv & H).
  apply tail_numbers_inv in H
    as (M & m & p & pre & build & rest & -> & HM & Hm & Hp & Hpre & Hbuild & Hrest & ->).
  rewrite key_of_groups. intros [= <-].
  exists (v +:+ M +:+ "." +:+ m +:+ "." +:+ p +:+ tagged "-" pre +:+ tagged "+" build),
    rest.
  split; [now rewrite !append_assoc|]. split; [exact Hrest|].
  now constructor.
Qed.

(** ** Worked examples *)

(** The test of the repository: 0.2.0 then 0.10.0, the latest is 0.10.0. *)
Example test_semver_latest_version :
  fst (get_node_type "atomic.echo" None (registry_with ["0.2.0"; "0.10.0"]))
  = Return (echo "0.10.0").
Proof. vm_compute. reflexivity. Qed.

Example latest_release_over_prerelease :
  fst (get_node_type "atomic.echo" None (registry_with ["1.0.0-alpha"; "1.0.0"]))
  = Return (echo "1.0.0")
  /\ fst (get_node_type "atomic.echo" None (registry_with ["1.0.0"; "1.0.0-alpha"]))
     = Return (echo "1.0.0").
Proof. vm_compute. auto. Qed.

Example latest_prerelease_identifiers :
  fst (get_node_type "atomic.echo" None
         (registry_with ["1.0.0-alpha.beta"; "1.0.0-alpha.1"; "1.0.0-alpha"; "1.0.0-2"]))
  = Return (echo "1.0.0-alpha.beta")
  /\ fst (get_node_type "atomic.echo" None
            (registry_with ["1.0.0-9"; "1.0.0-10"; "1.0.0-alpha"; "1.0.0-alpha.1"]))
     = Return (echo "1.0.0-alpha.1").
Proof. vm_compute. auto. Qed.

Example latest_without_semver :
  fst (get_node_type "atomic.echo" None (registry_with ["release-a"; "release-b"]))
  = Return (echo "release-b").
Proof. vm_compute. reflexivity. Qed.

Example latest_ignores_unparsed :
  fst (get_node_type "atomic.echo" None (registry_with ["zeta"; "0.1.0"; "01.0.0"]))
  = Return (echo "0.1.0").
Proof. vm_compute. reflexivity. Qed.

Example publish_twice :
  fst (publish_node_type (echo "1.0.0") fresh_registry) = Return (echo "1.0.0")
  /\ fst (publish_node_type (echo "1.0.0") (registry_with ["1.0.0"]))
     = Raise (ArpServerError "node_type_already_exists"
                "NodeType 'atomic.echo@1.0.0' already exists" 409)
  /\ length (_store (registry_with ["1.0.0"; "1.0.0"])) = 1.
Proof. vm_compute. auto. Qed.

Example list_filtering :
  let bar := {| node_type_id := "foo.bar"; version := "1.0.0"; kind := atomic;
                other_fields := "" |} in
  let baz := {| node_type_id := "foo.baz"; version := "1.0.0"; kind := composite;
                other_fields := "" |} in
  let self := run [(0%Z, PublishNodeTypeRequest baz); (0%Z, PublishNodeTypeRequest bar)]
                fresh_registry in
  fst (list_node_types (Some "foo.b") (Some atomic) self) = Return [bar]
  /\ fst (list_node_types (Some "") None self) = Return [bar; baz]
  /\ fst (list_node_types (Some "  FOO.BA ") None self) = Return [bar; baz]
  /\ fst (list_node_types (Some "qux") None self) = Return [].
Proof. vm_compute. auto. Qed.

(** A version string that ends in a newline is among the parsing ones. *)
Example latest_with_final_newline :
  let v := String "9" (String "." (String "0" (String "." (String "0"
             (String "010" EmptyString))))) in
  fst (get_node_type "atomic.echo" None (registry_with ["1.0.0"; v]))
  = Return (echo v).
Proof. vm_compute. reflexivity. Qed.

(** The pattern ends in [$], which also matches just before a final
    newline: such a version string has the key of the string without it. *)
Example semver_key_samples :
  _semver_key "v1.2.3-alpha.1+build.5" = Some (1, 2, 3, 0, [PStr "alpha"; PNum 1])%N
  /\ _semver_key "1.0.0" = Some (1, 0, 0, 1, [])%N
  /\ _semver_key "01.0.0" = None
  /\ _semver_key "1.0" = None
  /\ _semver_key "1.0.0-" = None
  /\ _semver_key "1.0.0-a..01" = Some (1, 0, 0, 0, [PStr "a"; PStr ""; PNum 1])%N
  /\ _semver_key (String "1" (String "." (String "0" (String "." (String "0"
       (String "010" EmptyString)))))) = Some (1, 0, 0, 1, [])%N.
Proof. vm_compute. repeat split. Qed.

(** * Further properties of the code *)

(** ** [_semver_key] and the pattern *)

Lemma version_text_key (v M m p : string) (pre build : option string)
    (rest : string) :
  v_prefix v -> numeric_field M -> numeric_field m -> numeric_field p ->
  optional_run pre -> optional_run build -> last_line rest ->
  _semver_key (version_text v M m p pre build rest)
  = Some (key_of_fields M m p pre).
Proof.
  intros Hv HM Hm Hp Hpre Hbuild Hrest.
  pose proof (semver_text_key _ rest _
                (semver_text_of v M m p pre build Hv HM Hm Hp Hpre Hbuild) Hrest)
    as H.
  rewrite !append_assoc in H. exact H.
Qed.

Lemma semver_key_fields (version : string) (k : semver_key) :
  _semver_key version = Some k ->
  exists v M m p pre build rest,
    version = version_text v M m p pre build rest
    /\ v_prefix v
    /\ numeric_field M /\ numeric_field m /\ numeric_field p
    /\ optional_run pre /\ optional_run build /\ last_line rest
    /\ k = key_of_fields M m p pre.
Proof.
  intros H. apply key_semver_text in H as (body & rest & -> & Hrest & Hbody).
  destruct Hbody as [v M m p pre build Hv HM Hm Hp Hpre Hbuild].
  exists v, M, m, p, pre, build, rest. unfold version_text.
  rewrite !append_assoc. repeat split; auto.
Qed.





(** X3.  The leading [v], the build metadata and a final newline have no
    part in the key: two version strings with the same numbers and the same
    prerelease have the same key. *)
Theorem semver_key_ignores_prefix_and_build (v v' M m p : string)
    (pre build build' : option string) (rest rest' : string) :
  v_prefix v -> v_prefix v' ->
  numeric_field M -> numeric_field m -> numeric_field p ->
  optional_run pre -> optional_run build -> optional_run build' ->
  last_line rest -> last_line rest' ->
  _semver_key (version_text v M m p pre build rest)
  = _semver_key (version_text v' M m p pre build' rest').
Proof.
  intros. rewrite !version_text_key; auto.
Qed.

Lemma semver_key_ignores_prefix_and_build_witness :
  _semver_key "v2.0.1-beta+exp.sha" = _semver_key "2.0.1-beta".
Proof.
  apply (semver_key_ignores_prefix_and_build "v" "" "2" "0" "1" (Some "beta")
           (Some "exp.sha") None "" "").
  - right. reflexivity.
  - left. reflexivity.
  - right. exists "2"%char, "". vm_compute. auto.
  - left. reflexivity.
  - right. exists "1"%char, "". vm_compute. auto.
  - vm_compute. split; [discriminate|reflexivity].
  - vm_compute. split; [discriminate|reflexivity].
  - exact I.
  - left. reflexivity.
  - left. reflexivity.
Defined.



Lemma numeric_field_digits (s : string) :
  numeric_field s -> s <> "" /\ all_in Py.is_ascii_digit s = true.
Proof.
  intros [->|(c & rest & -> & Hc & Hrest)].
  - split; [discriminate|reflexivity].
  - split; [discriminate|]. simpl. now rewrite (nonzero_digit c Hc), Hrest.
Qed.

(** Two runs over a class, each followed by something outside the class,
    that make up the same string are the same run. *)
Lemma span_unique (p : ascii -> bool) (a a' r r' : string) :
  all_in p a = true -> all_in p a' = true ->
  starts_outside p r -> starts_outside p r' ->
  a +:+ r = a' +:+ r' -> a = a' /\ r = r'.
Proof.
  revert a'. induction a as [|c a IH]; intros [|c' a'] Ha Ha' Hr Hr' E.
  - auto.
  - change ("" +:+ r) with r in E. subst r.
    change (String c' a' +:+ r') with (String c' (a' +:+ r')) in Hr.
    simpl in Hr, Ha'. apply andb_true_iff in Ha' as [Hc' _]. congruence.
  - change ("" +:+ r') with r' in E. subst r'.
    change (String c a +:+ r) with (String c (a +:+ r)) in Hr'.
    simpl in Hr', Ha. apply andb_true_iff in Ha as [Hc _]. congruence.
  - change (String c (a +:+ r) = String c' (a' +:+ r')) in E.
    injection E as -> E. simpl in Ha, Ha'.
    apply andb_true_iff in Ha as [_ Ha]. apply andb_true_iff in Ha' as [_ Ha'].
    destruct (IH a' Ha Ha' Hr Hr' E) as [-> ->]. auto.
Qed.

Lemma tail_outside_digits (pre build : option string) (rest : string) :
  last_line rest ->
  starts_outside Py.is_ascii_digit (tagged "-" pre +:+ tagged "+" build +:+ rest).
Proof.
  intros Hrest. destruct pre as [t|]; [reflexivity|].
  destruct build as [t|]; [reflexivity|].
  destruct Hrest as [->| ->]; reflexivity.
Qed.

(** The numeric fields of a version text are determined by the text. *)
Lemma version_text_fields (v v' M M' m m' p p' : string)
    (pre pre' build build' : option string) (rest rest' : string) :
  v_prefix v -> v_prefix v' ->
  M <> "" -> all_in Py.is_ascii_digit M = true ->
  M' <> "" -> all_in Py.is_ascii_digit M' = true ->
  all_in Py.is_ascii_digit m = true -> all_in Py.is_ascii_digit m' = true ->
  all_in Py.is_ascii_digit p = true -> all_in Py.is_ascii_digit p' = true ->
  last_line rest -> last_line rest' ->
  version_text v M m p pre build rest = version_text v' M' m' p' pre' build' rest' ->
  M = M' /\ m = m' /\ p = p'.
Proof.
  intros Hv Hv' HMne HM HM'ne HM' Hm Hm' Hp Hp' Hrest Hrest' E.
  unfold version_text in E.
  assert (Ev : M +:+ "." +:+ m +:+ "." +:+ p
                 +:+ tagged "-" pre +:+ tagged "+" build +:+ rest
               = M' +:+ "." +:+ m' +:+ "." +:+ p'
                 +:+ tagged "-" pre' +:+ tagged "+" build' +:+ rest').
  { destruct M as [|c M]; [congruence|]. destruct M' as [|c' M']; [congruence|].
    simpl in HM, HM'.
    apply andb_true_iff in HM as [Hc _]. apply andb_true_iff in HM' as [Hc' _].
    destruct Hv as [->| ->], Hv' as [->| ->]; [exact E| | |].
    - change (String c (M +:+ "." +:+ m +:+ "." +:+ p
                +:+ tagged "-" pre +:+ tagged "+" build +:+ rest)
              = String "v" (String c' M' +:+ "." +:+ m' +:+ "." +:+ p'
                +:+ tagged "-" pre' +:+ tagged "+" build' +:+ rest')) in E.
      injection E as -> _. discriminate.
    - change (String "v" (String c M +:+ "." +:+ m +:+ "." +:+ p
                +:+ tagged "-" pre +:+ tagged "+" build +:+ rest)
              = String c' (M' +:+ "." +:+ m' +:+ "." +:+ p'
                +:+ tagged "-" pre' +:+ tagged "+" build' +:+ rest')) in E.
      injection E as <- _. discriminate.
    - change (String "v" (String c M +:+ "." +:+ m +:+ "." +:+ p
                +:+ tagged "-" pre +:+ tagged "+" build +:+ rest)
              = String "v" (String c' M' +:+ "." +:+ m' +:+ "." +:+ p'
                +:+ tagged "-" pre' +:+ tagged "+" build' +:+ rest')) in E.
      injection E as -> E.
      change (String c' (M +:+ "." +:+ m +:+ "." +:+ p
                +:+ tagged "-" pre +:+ tagged "+" build +:+ rest)
              = String c' (M' +:+ "." +:+ m' +:+ "." +:+ p'
                +:+ tagged "-" pre' +:+ tagged "+" build' +:+ rest')).
      now rewrite E. }
  apply (span_unique Py.is_ascii_digit) in Ev as [-> Ev]; auto; try reflexivity.
  change (String "." (m +:+ "." +:+ p
            +:+ tagged "-" pre +:+ tagged "+" build +:+ rest)
          = String "." (m' +:+ "." +:+ p'
            +:+ tagged "-" pre' +:+ tagged "+" build' +:+ rest')) in Ev.
  injection Ev as Ev.
  apply (span_unique Py.is_ascii_digit) in Ev as [-> Ev]; auto; try reflexivity.
  change (String "." (p +:+ tagged "-" pre +:+ tagged "+" build +:+ rest)
          = String "." (p' +:+ tagged "-" pre' +:+ tagged "+" build' +:+ rest')) in Ev.
  injection Ev as Ev.
  apply (span_unique Py.is_ascii_digit) in Ev as [-> Ev];
    auto using tail_outside_digits.
Qed.

Lemma numeric_field_no_leading_zero (s : string) :
  numeric_field s -> ~ leading_zero s.
Proof.
  intros [->|(c & rest & -> & Hc & _)] (d & rest' & E).
  - discriminate.
  - injection E as -> _. discriminate.
Qed.

(** X4.  A numeric field that starts with a zero followed by another digit
    leaves the version string without a key, whichever of MAJOR, MINOR and
    PATCH it is and whatever follows the three fields. *)
Theorem leading_zero_has_no_key (v M m p : string) (pre build : option string)
    (rest : string) :
  v_prefix v -> M <> "" ->
  all_in Py.is_ascii_digit M = true -> all_in Py.is_ascii_digit m = true ->
  all_in Py.is_ascii_digit p = true -> last_line rest ->
  leading_zero M \/ leading_zero m \/ leading_zero p ->
  _semver_key (version_text v M m p pre build rest) = None.
Proof.
  intros Hv HMne HM Hm Hp Hrest Hzero.
  destruct (_semver_key (version_text v M m p pre build rest)) as [k|] eqn:E;
    [|reflexivity].
  apply semver_key_fields in E
    as (v' & M' & m' & p' & pre' & build' & rest' & E & Hv' & HM' & Hm' & Hp'
        & _ & _ & Hrest' & _).
  destruct (numeric_field_digits M' HM') as [HM'ne HM'd].
  destruct (numeric_field_digits m' Hm') as [_ Hm'd].
  destruct (numeric_field_digits p' Hp') as [_ Hp'd].
  destruct (version_text_fields v v' M M' m m' p p' pre pre' build build'
              rest rest') as (-> & -> & ->); auto.
  destruct Hzero as [H|[H|H]];
    eapply numeric_field_no_leading_zero in H; eauto; contradiction.
Qed.

Lemma leading_zero_has_no_key_witness :
  _semver_key "v1.02.3-rc" = None.
Proof.
  apply (leading_zero_has_no_key "v" "1" "02" "3" (Some "rc") None "").
  - right. reflexivity.
  - discriminate.
  - reflexivity.
  - reflexivity.
  - reflexivity.
  - left. reflexivity.
  - right. left. exists "2"%char, "". reflexivity.
Defined.





(** ** The two dictionaries *)

Lemma init_mirrors (name ver : string) : index_mirrors_store (__init__ name ver).
Proof. intros i. reflexivity. Qed.

Lemma with_published_mirrors (self : NodeRegistry) (node_type : NodeType) :
  Dict.get (sort_key node_type) (_store self) = None ->
  index_mirrors_store self ->
  index_mirrors_store (with_published self (sort_key node_type) node_type).
Proof.
  intros Hnone Hmirror i.
  unfold published_versions, stored_versions, with_published. simpl.
  rewrite (dict_set_fresh _ _ _ Hnone). unfold Dict.keys.
  rewrite map_app, filter_app, fmap_app. simpl.
  fold (Dict.keys (_store self)). fold (stored_versions self i).
  rewrite <- (Hmirror i).
  destruct (decide (node_type_id node_type = i)) as [<-|Hne].
  - rewrite lookup_insert_eq. simpl.
    rewrite filter_cons_True by reflexivity. reflexivity.
  - rewrite lookup_insert_ne by exact Hne.
    rewrite filter_cons_False by exact Hne.
    simpl. now rewrite app_nil_r.
Qed.

Lemma handle_mirrors (now : Z) (req : request) (self : NodeRegistry) :
  index_mirrors_store self -> index_mirrors_store (snd (handle now req self)).
Proof.
  intros H. destruct (is_read req) eqn:E.
  - now rewrite read_keeps_state.
  - destruct req; try discriminate. simpl.
    destruct (publish_cases node_type self) as [[_ ->]|[Hnone ->]]; simpl; auto.
    now apply with_published_mirrors.
Qed.

Lemma run_mirrors (trace : list (Z * request)) (self : NodeRegistry) :
  index_mirrors_store self -> index_mirrors_store (run trace self).
Proof.
  revert self. induction trace as [|[now req] trace IH]; intros self H; simpl; auto.
  apply IH. now apply handle_mirrors.
Qed.

Lemma reachable_mirrors (self : NodeRegistry) :
  reachable self -> index_mirrors_store self.
Proof. intros (name & ver & trace & ->). apply run_mirrors, init_mirrors. Qed.

(** X6.  In every reachable state the version index is the store seen by
    identifier: [_versions[i]] lists the versions of the store keys with
    identifier [i], in the order in which the store holds them, which is
    the order of publication. *)
Theorem versions_index_mirrors_store (self : NodeRegistry) (i : string) :
  reachable self ->
  published_versions self i
  = snd <$> filter (fun k => fst k = i) (Dict.keys (_store self)).
Proof.
  intros (name & ver & trace & ->).
  apply (run_mirrors trace (__init__ name ver)), init_mirrors.
Qed.

Lemma versions_index_mirrors_store_witness :
  published_versions mixed_registry "atomic.echo" = ["0.2.0"; "0.10.0"].
Proof.
  refine (eq_trans (versions_index_mirrors_store _ "atomic.echo" _) _).
  - exists "arp-template-node-registry", "0.1.0". eexists. reflexivity.
  - vm_compute. reflexivity.
Defined.

Lemma stored_versions_elem (self : NodeRegistry) (i v : string) :
  v ∈ stored_versions self i <-> (i, v) ∈ Dict.keys (_store self).
Proof.
  unfold stored_versions. rewrite list_elem_of_fmap. split.
  - intros ([i' v'] & -> & H). apply list_elem_of_filter in H as [Hi H].
    simpl in *. now subst i'.
  - intros H. exists (i, v). split; [reflexivity|].
    apply list_elem_of_filter. auto.
Qed.

Lemma dict_get_Some_keys {K V : Type} `{EqDecision K} (k : K) (d : list (K * V)) :
  is_Some (Dict.get k d) <-> k ∈ Dict.keys d.
Proof.
  destruct (Dict.get k d) as [v|] eqn:E.
  - split; [intros _|eauto].
    destruct (decide (k ∈ Dict.keys d)) as [H|H]; auto.
    apply dict_get_None_keys in H. congruence.
  - split; [intros [? [=]]|]. intros H. now apply dict_get_None_keys in E.
Qed.

(** X7.  In every reachable state a version is in the index of an
    identifier exactly when the store has the key, and no version is listed
    twice. *)
Theorem versions_index_exact (self : NodeRegistry) (i : string) :
  reachable self ->
  NoDup (published_versions self i)
  /\ forall v, v ∈ published_versions self i
               <-> is_Some (Dict.get (i, v) (_store self)).
Proof.
  intros Hreach. pose proof (reachable_mirrors self Hreach i) as ->.
  destruct (reachable_invariants self Hreach) as [_ [_ Hnodup]]. split.
  - unfold stored_versions. apply NoDup_fmap_2_strong.
    + intros [i1 v1] [i2 v2] H1 H2 E.
      apply list_elem_of_filter in H1 as [H1 _].
      apply list_elem_of_filter in H2 as [H2 _]. simpl in *. congruence.
    + now apply NoDup_filter.
  - intros v. now rewrite stored_versions_elem, dict_get_Some_keys.
Qed.

Lemma versions_index_exact_witness :
  NoDup (published_versions (registry_with ["0.2.0"; "0.2.0"; "0.10.0"]) "atomic.echo")
  /\ forall v,
       v ∈ published_versions (registry_with ["0.2.0"; "0.2.0"; "0.10.0"]) "atomic.echo"
       <-> is_Some (Dict.get ("atomic.echo", v)
                      (_store (registry_with ["0.2.0"; "0.2.0"; "0.10.0"]))).
Proof.
  apply (versions_index_exact (registry_with ["0.2.0"; "0.2.0"; "0.10.0"])).
  exists "arp-template-node-registry", "0.1.0". eexists. reflexivity.
Defined.

Lemma latest_version_only_recorded (i v : string) (self : NodeRegistry) :
  latest_version i self = Return v -> v ∈ published_versions self i.
Proof.
  intros H.
  destruct (published_versions self i) as [|v0 vs] eqn:E.
  - rewrite latest_version_empty in H by exact E. discriminate.
  - destruct (latest_version_recorded i self) as (v' & Hv' & Hin).
    + rewrite E. discriminate.
    + rewrite E in Hin. congruence.
Qed.

(** X8.  In every reachable state what [get_node_type] returns is what was
    asked for: the NodeType carries the identifier of the request, and the
    version of the request when one is given. *)
Theorem get_returns_what_was_asked (self self' : NodeRegistry) (i : string)
    (asked : option string) (node_type : NodeType) :
  reachable self ->
  get_node_type i asked self = (Return node_type, self') ->
  node_type_id node_type = i
  /\ match asked with
     | Some v => version node_type = v
     | None => version node_type ∈ published_versions self i
     end.
Proof.
  intros Hreach Hget.
  destruct (reachable_invariants self Hreach) as [_ Hkeyed].
  destruct asked as [v|].
  - rewrite get_node_type_explicit in Hget.
    destruct (Dict.get (i, v) (_store self)) as [x|] eqn:E; [|discriminate].
    injection Hget as -> _.
    apply (store_keyed_get self (i, v) node_type Hkeyed E).
  - destruct (latest_version i self) as [v|e] eqn:Hv.
    + apply latest_version_only_recorded in Hv as Hin.
      rewrite (get_node_type_latest _ _ _ Hv), get_node_type_explicit in Hget.
      destruct (Dict.get (i, v) (_store self)) as [x|] eqn:E; [|discriminate].
      injection Hget as -> _.
      destruct (store_keyed_get self (i, v) node_type Hkeyed E) as [Hi Hver].
      simpl in *. split; [exact Hi|]. now rewrite Hver.
    + unfold get_node_type in Hget. rewrite Hv in Hget. discriminate.
Qed.

Lemma get_returns_what_was_asked_witness :
  get_node_type "atomic.echo" None (registry_with ["0.2.0"; "0.10.0"])
  = (Return (echo "0.10.0"), registry_with ["0.2.0"; "0.10.0"])
  /\ node_type_id (echo "0.10.0") = "atomic.echo"
  /\ version (echo "0.10.0")
     ∈ published_versions (registry_with ["0.2.0"; "0.10.0"]) "atomic.echo".
Proof.
  assert (H : get_node_type "atomic.echo" None (registry_with ["0.2.0"; "0.10.0"])
              = (Return (echo "0.10.0"), registry_with ["0.2.0"; "0.10.0"]))
    by (vm_compute; reflexivity).
  split; [exact H|].
  apply (get_returns_what_was_asked (registry_with ["0.2.0"; "0.10.0"])
           (registry_with ["0.2.0"; "0.10.0"]) "atomic.echo" None (echo "0.10.0")).
  - exists "arp-template-node-registry", "0.1.0". eexists. reflexivity.
  - exact H.
Defined.

(** ** Errors *)




(** ** Publishing *)

Lemma publish_success_state (node_type returned : NodeType)
    (self self' : NodeRegistry) :
  publish_node_type node_type self = (Return returned, self') ->
  Dict.get (sort_key node_type) (_store self) = None
  /\ returned = node_type
  /\ self' = with_published self (sort_key node_type) node_type.
Proof.
  intros H. destruct (publish_cases node_type self) as [[_ E]|[Hnone E]];
    rewrite E in H; [discriminate|].
  injection H as <- <-. auto.
Qed.

(** X10.  Publishing the same NodeType again right after a successful
    publish raises [node_type_already_exists] and changes nothing; the
    successful publish made the store longer by exactly one entry. *)
Theorem publish_twice_conflicts (node_type returned : NodeType)
    (self self' : NodeRegistry) :
  publish_node_type node_type self = (Return returned, self') ->
  publish_node_type node_type self' = (Raise (already_exists node_type), self')
  /\ length (_store self') = S (length (_store self)).
Proof.
  intros H. apply publish_success_state in H as (Hnone & _ & ->). split.
  - apply publish_conflict. simpl. rewrite dict_get_set_eq. eauto.
  - simpl. rewrite (dict_set_fresh _ _ _ Hnone), length_app. simpl. lia.
Qed.

Lemma publish_twice_conflicts_witness :
  publish_node_type (echo "0.10.0") (registry_with ["0.2.0"; "0.10.0"])
  = (Raise (already_exists (echo "0.10.0")), registry_with ["0.2.0"; "0.10.0"])
  /\ length (_store (registry_with ["0.2.0"; "0.10.0"]))
     = S (length (_store (registry_with ["0.2.0"]))).
Proof.
  apply (publish_twice_conflicts (echo "0.10.0") (echo "0.10.0")
           (registry_with ["0.2.0"]) (registry_with ["0.2.0"; "0.10.0"])).
  vm_compute. reflexivity.
Defined.

Lemma handle_grows (now : Z) (req : request) (self : NodeRegistry) (i : string) :
  _store self `prefix_of` _store (snd (handle now req self))
  /\ published_versions self i
     `prefix_of` published_versions (snd (handle now req self)) i.
Proof.
  destruct (is_read req) eqn:E.
  - rewrite read_keeps_state by exact E. split; reflexivity.
  - destruct req; try discriminate. simpl.
    destruct (publish_cases node_type self) as [[_ ->]|[Hnone ->]]; simpl;
      [split; reflexivity|].
    split.
    + rewrite (dict_set_fresh _ _ _ Hnone). now apply prefix_app_r.
    + unfold published_versions. simpl.
      destruct (decide (node_type_id node_type = i)) as [<-|Hne].
      * rewrite lookup_insert_eq. simpl. now apply prefix_app_r.
      * now rewrite lookup_insert_ne.
Qed.

(** X11.  The registry only ever appends: whatever requests are served,
    the store they leave starts with the store they found, and so does the
    version list of every identifier.  Nothing is removed, replaced or
    reordered. *)
Theorem registry_append_only (trace : list (Z * request)) (self : NodeRegistry)
    (i : string) :
  _store self `prefix_of` _store (run trace self)
  /\ published_versions self i `prefix_of` published_versions (run trace self) i.
Proof.
  revert self. induction trace as [|[now req] trace IH]; intros self; simpl.
  - split; reflexivity.
  - destruct (handle_grows now req self i) as [H1 H2].
    destruct (IH (snd (handle now req self))) as [H3 H4].
    split; etrans; eauto.
Qed.

(** X12.  The service name and version given to [__init__] are what
    [version] reports ever after, with the one supported API version [v1],
    whatever requests were served in between. *)
Theorem version_info_constant (name ver : string) (trace : list (Z * request)) :
  version_ (run trace (__init__ name ver))
  = (Return {| service_name := name; service_version := ver;
               supported_api_versions := ["v1"] |},
     run trace (__init__ name ver)).
Proof.
  assert (H : forall self,
             _service_name (run trace self) = _service_name self
             /\ _service_version (run trace self) = _service_version self).
  { induction trace as [|[now req] trace IH]; intros self; simpl; [auto|].
    destruct (IH (snd (handle now req self))) as [-> ->].
    destruct (is_read req) eqn:E.
    - now rewrite read_keeps_state.
    - destruct req; try discriminate. simpl.
      destruct (publish_cases node_type self) as [[_ ->]|[_ ->]]; auto. }
  unfold version_. destruct (H (__init__ name ver)) as [-> ->]. reflexivity.
Qed.

(** X13.  A publish leaves every other key and every other identifier as
    they were: a get with another identifier or another version, and a get
    of the latest version of another identifier, answer as before. *)
Theorem publish_leaves_others (node_type : NodeType) (self : NodeRegistry)
    (i : string) (asked : option string) :
  match asked with
  | Some v => (i, v) <> (node_type_id node_type, version node_type)
  | None => i <> node_type_id node_type
  end ->
  fst (get_node_type i asked (snd (publish_node_type node_type self)))
  = fst (get_node_type i asked self).
Proof.
  intros Hne.
  destruct (publish_cases node_type self) as [[_ ->]|[Hnone ->]]; [reflexivity|].
  simpl snd.
  assert (Hget : forall v, (i, v) <> sort_key node_type ->
            fst (get_node_type i (Some v)
                   (with_published self (sort_key node_type) node_type))
            = fst (get_node_type i (Some v) self)).
  { intros v Hv. rewrite !get_node_type_explicit. simpl.
    rewrite dict_get_set_ne by congruence.
    now destruct (Dict.get (i, v) (_store self)). }
  destruct asked as [v|]; [now apply Hget|].
  assert (Hlatest : latest_version i
                      (with_published self (sort_key node_type) node_type)
                    = latest_version i self).
  { rewrite !latest_version_unfold.
    assert (E : published_versions
                  (with_published self (sort_key node_type) node_type) i
                = published_versions self i).
    { unfold published_versions. simpl. now rewrite lookup_insert_ne. }
    now rewrite E. }
  destruct (latest_version i self) as [v|e] eqn:Hv.
  - rewrite (get_node_type_latest _ _ _ Hlatest), (get_node_type_latest _ _ _ Hv).
    apply Hget. unfold sort_key. congruence.
  - unfold get_node_type. now rewrite Hlatest, Hv.
Qed.

Lemma publish_leaves_others_witness :
  fst (get_node_type "atomic.echo" None
         (snd (publish_node_type (flow "9.0.0") (registry_with ["0.2.0"; "0.10.0"]))))
  = fst (get_node_type "atomic.echo" None (registry_with ["0.2.0"; "0.10.0"])).
Proof.
  apply (publish_leaves_others (flow "9.0.0")
           (registry_with ["0.2.0"; "0.10.0"]) "atomic.echo" None).
  simpl. discriminate.
Defined.

(** ** The latest version after a publish *)



Lemma str_lt_antisym (a b : string) :
  Py.str_lt a b = false -> Py.str_lt b a = false -> a = b.
Proof.
  unfold Py.str_lt, String.ltb. intros H1 H2.
  destruct string_compare_order as [Heq _ Hopp _].
  destruct (String.compare a b) eqn:E; [auto|discriminate|].
  rewrite Hopp, E in H2. discriminate.
Qed.

Lemma sorted_last_snoc (vs : list string) (v w : string) :
  last (Py.sorted id Py.str_lt vs) = Some v ->
  last (Py.sorted id Py.str_lt (vs ++ [w]))
  = Some (if Py.str_lt v w then w else v).
Proof.
  intros Hv.
  apply (sorted_last_greatest id Py.str_lt str_lt_order) in Hv as [Hin Hmax].
  destruct (last (Py.sorted id Py.str_lt (vs ++ [w]))) as [m|] eqn:Hm.
  - apply (sorted_last_greatest id Py.str_lt str_lt_order) in Hm as [Hin' Hmax'].
    f_equal. unfold id in *.
    apply elem_of_app in Hin' as [Hm|Hm].
    + (* the greatest is among the old ones *)
      assert (m = v) as ->.
      { apply str_lt_antisym; [|now apply Hmax].
        apply Hmax'. apply elem_of_app. now left. }
      assert (Hw : Py.str_lt v w = false)
        by (apply Hmax'; apply elem_of_app; right; left).
      now rewrite Hw.
    + apply list_elem_of_singleton in Hm as ->.
      destruct (Py.str_lt v w) eqn:E; [reflexivity|].
      apply str_lt_antisym; [|exact E].
      apply Hmax'. apply elem_of_app. now left.
  - apply last_None in Hm. apply sorted_nonempty in Hm; [contradiction|].
    destruct vs; discriminate.
Qed.

Lemma published_after_publish (self : NodeRegistry) (node_type : NodeType) :
  published_versions (with_published self (sort_key node_type) node_type)
    (node_type_id node_type)
  = published_versions self (node_type_id node_type) ++ [version node_type].
Proof. unfold published_versions. simpl. now rewrite lookup_insert_eq. Qed.

Lemma keyed_snoc (vs : list string) (w : string) :
  keyed (map with_key (vs ++ [w]))
  = keyed (map with_key vs)
    ++ match _semver_key w with Some k => [(w, k)] | None => [] end.
Proof.
  rewrite map_app, keyed_app. simpl. unfold with_key at 2.
  now destruct (_semver_key w).
Qed.

(** The latest version as a function of the version list alone. *)
Lemma latest_version_of_list (i : string) (self : NodeRegistry) (vs : list string) :
  published_versions self i = vs -> vs <> [] ->
  latest_version i self
  = match keyed (map with_key vs) with
    | _ :: _ =>
        match Py.max snd key_lt (keyed (map with_key vs)) with
        | Some item => Return (fst item)
        | None => Raise ValueError
        end
    | [] =>
        match last (Py.sorted id Py.str_lt vs) with
        | Some v => Return v
        | None => Raise IndexError
        end
    end.
Proof.
  intros <- Hne. rewrite latest_version_unfold.
  destruct (published_versions self i); [congruence|reflexivity].
Qed.


Lemma snoc_nonempty {A : Type} (l : list A) (x : A) : l ++ [x] <> [].
Proof. destruct l; discriminate. Qed.



Lemma latest_after_publish_plain (i v w : string) (self self' : NodeRegistry) :
  published_versions self' i = published_versions self i ++ [w] ->
  (forall x, x ∈ published_versions self i -> _semver_key x = None) ->
  _semver_key w = None ->
  latest_version i self = Return v ->
  latest_version i self' = Return (if Py.str_lt v w then w else v).
Proof.
  intros Hvs Hnone Hkw Hv. pose proof (latest_version_only_recorded _ _ _ Hv) as Hin.
  rewrite (latest_version_of_list i self _ eq_refl) in Hv
    by (intros E; rewrite E in Hin; inversion Hin).
  rewrite (latest_version_of_list i self' _ Hvs) by apply snoc_nonempty.
  apply keyed_nil in Hnone. rewrite keyed_snoc, Hnone, Hkw in *. simpl.
  destruct (last (Py.sorted id Py.str_lt (published_versions self i)))
    as [v'|] eqn:Hlast; [|discriminate].
  injection Hv as ->.
  now rewrite (sorted_last_snoc _ _ w Hlast).
Qed.

Lemma get_latest_inv (i : string) (self : NodeRegistry) (old : NodeType) :
  fst (get_node_type i None self) = Return old ->
  exists v, latest_version i self = Return v
            /\ Dict.get (i, v) (_store self) = Some old.
Proof.
  intros H. destruct (latest_version i self) as [v|e] eqn:Hv.
  - rewrite (get_node_type_latest _ _ _ Hv), get_node_type_explicit in H.
    destruct (Dict.get (i, v) (_store self)) as [x|] eqn:E; [|discriminate].
    injection H as ->. eauto.
  - unfold get_node_type in H. rewrite Hv in H. discriminate.
Qed.

Lemma get_latest_of (i v : string) (self : NodeRegistry) (x : NodeType) :
  latest_version i self = Return v -> Dict.get (i, v) (_store self) = Some x ->
  fst (get_node_type i None self) = Return x.
Proof.
  intros Hv Hx.
  now rewrite (get_node_type_latest _ _ _ Hv), get_node_type_explicit, Hx.
Qed.

Lemma get_after_publish (self : NodeRegistry) (node_type : NodeType)
    (k : string * string) (x : NodeType) :
  Dict.get (sort_key node_type) (_store self) = None ->
  Dict.get k (_store self) = Some x ->
  Dict.get k (_store (with_published self (sort_key node_type) node_type)) = Some x.
Proof.
  intros Hnone Hx. simpl. rewrite dict_get_set_ne; [exact Hx|congruence].
Qed.





(** X16.  When no version of an identifier parses, neither those on record
    nor the one published, the new NodeType becomes the latest exactly when
    its version string is strictly greater, in code-point order, than that
    of the latest so far. *)
Theorem publish_moves_plain_latest_up (self self' : NodeRegistry)
    (node_type returned old : NodeType) :
  reachable self ->
  publish_node_type node_type self = (Return returned, self') ->
  fst (get_node_type (node_type_id node_type) None self) = Return old ->
  (forall v, v ∈ published_versions self (node_type_id node_type) ->
             _semver_key v = None) ->
  _semver_key (version node_type) = None ->
  fst (get_node_type (node_type_id node_type) None self')
  = Return (if Py.str_lt (version old) (version node_type) then node_type
            else old).
Proof.
  intros Hreach Hpub Hold Hnone Hkw.
  destruct (reachable_invariants self Hreach) as [_ Hkeyed].
  apply publish_success_state in Hpub as (Hfresh & _ & ->).
  apply get_latest_inv in Hold as (v & Hv & Hget).
  destruct (store_keyed_get self _ old Hkeyed Hget) as [_ Hver]. simpl in Hver.
  rewrite Hver.
  pose proof (latest_after_publish_plain _ v (version node_type) self _
                (published_after_publish self node_type) Hnone Hkw Hv) as Hnew.
  destruct (Py.str_lt v (version node_type)).
  - eapply get_latest_of; [exact Hnew|]. simpl. apply dict_get_set_eq.
  - eapply get_latest_of; [exact Hnew|].
    now apply get_after_publish.
Qed.

Lemma publish_moves_plain_latest_up_witness :
  fst (get_node_type "atomic.echo" None (registry_with ["release-b"; "release-a"]))
  = Return (echo "release-b").
Proof.
  refine (publish_moves_plain_latest_up (registry_with ["release-b"])
            (registry_with ["release-b"; "release-a"])
            (echo "release-a") (echo "release-a") (echo "release-b") _ _ _ _ _).
  - exists "arp-template-node-registry", "0.1.0". eexists. reflexivity.
  - vm_compute. reflexivity.
  - vm_compute. reflexivity.
  - intros v Hv. vm_compute in Hv.
    apply list_elem_of_singleton in Hv as ->. vm_compute. reflexivity.
  - vm_compute. reflexivity.
Defined.



(** ** Listing and the order of publication *)

Lemma dict_elem_get {K V : Type} `{EqDecision K} (k : K) (v : V) (d : list (K * V)) :
  NoDup (Dict.keys d) -> (k, v) ∈ d -> Dict.get k d = Some v.
Proof.
  induction d as [|[k' v'] d IH]; simpl; intros Hnd Hin; [inversion Hin|].
  apply NoDup_cons in Hnd as [Hk' Hnd].
  apply elem_of_cons in Hin as [[= -> ->]|Hin].
  - now rewrite decide_True.
  - destruct (decide (k = k')) as [->|Hne]; [|auto].
    destruct Hk'. apply list_elem_of_fmap. exists (k', v). auto.
Qed.

Lemma stored_value_get (self : NodeRegistry) (x : NodeType) :
  store_keyed self -> x ∈ Dict.values (_store self) ->
  Dict.get (sort_key x) (_store self) = Some x.
Proof.
  intros [Hall Hnd] Hx. apply list_elem_of_fmap in Hx as ([k y] & -> & Hin).
  rewrite Forall_forall in Hall. pose proof (Hall _ Hin) as Hk. simpl in *.
  subst k. now apply dict_elem_get.
Qed.

Lemma listed_is_stored (self : NodeRegistry) (q : option string)
    (kind_ : option NodeKind) (out : list NodeType) (x : NodeType) :
  fst (list_node_types q kind_ self) = Return out -> x ∈ out ->
  x ∈ Dict.values (_store self).
Proof.
  unfold list_node_types. simpl. intros [= <-] Hx.
  rewrite sorted_perm, list_loop_filter in Hx. simpl in Hx.
  apply list_elem_of_In, filter_In in Hx as [Hx _]. now apply list_elem_of_In.
Qed.

(** X18.  In every reachable state each NodeType that [list_node_types]
    returns can be fetched: [get_node_type] with its identifier and its
    version returns that same NodeType. *)
Theorem listed_can_be_fetched (self : NodeRegistry) (q : option string)
    (kind_ : option NodeKind) (out : list NodeType) (x : NodeType) :
  reachable self ->
  fst (list_node_types q kind_ self) = Return out -> x ∈ out ->
  get_node_type (node_type_id x) (Some (version x)) self = (Return x, self).
Proof.
  intros Hreach Hlist Hx.
  destruct (reachable_invariants self Hreach) as [_ Hkeyed].
  rewrite get_node_type_explicit.
  fold (sort_key x).
  now rewrite (stored_value_get self x Hkeyed (listed_is_stored _ _ _ _ _ Hlist Hx)).
Qed.

Lemma listed_can_be_fetched_witness :
  get_node_type "atomic.echo" (Some "0.2.0") (registry_with ["0.2.0"; "0.10.0"])
  = (Return (echo "0.2.0"), registry_with ["0.2.0"; "0.10.0"]).
Proof.
  apply (listed_can_be_fetched (registry_with ["0.2.0"; "0.10.0"]) (Some "ECHO")
           (Some atomic) [echo "0.10.0"; echo "0.2.0"] (echo "0.2.0")).
  - exists "arp-template-node-registry", "0.1.0". eexists. reflexivity.
  - vm_compute. reflexivity.
  - right. left.
Defined.

Lemma filter_permutation {A : Type} (f : A -> bool) (l l' : list A) :
  l ≡ₚ l' -> List.filter f l ≡ₚ List.filter f l'.
Proof.
  induction 1 as [|x l l' _ IH|x y l|l l' l'' _ IH1 _ IH2]; simpl.
  - reflexivity.
  - destruct (f x); [now constructor|exact IH].
  - destruct (f x), (f y); try reflexivity. apply Permutation_swap.
  - etrans; eauto.
Qed.

Lemma pair_lt_antisym (a b : string * string) :
  pair_lt a b = false -> pair_lt b a = false -> a = b.
Proof.
  unfold pair_lt, Py.ltb_of. intros H1 H2.
  destruct (pair_compare_order _ string_compare_order _ string_compare_order)
    as [Heq _ Hopp _].
  destruct (Py.pair_compare String.compare String.compare a b) eqn:E;
    [auto|discriminate|].
  rewrite Hopp, E in H2. discriminate.
Qed.

(** X19.  The listing does not depend on the order of publication: a
    registry whose store holds the entries of a reachable registry, in
    whatever order, returns the same list for the same filters. *)
Theorem list_ignores_publication_order (a b : NodeRegistry)
    (q : option string) (kind_ : option NodeKind) :
  reachable a -> _store a ≡ₚ _store b ->
  fst (list_node_types q kind_ a) = fst (list_node_types q kind_ b).
Proof.
  intros Ha Hperm.
  destruct (reachable_invariants a Ha) as [_ Hkeyed].
  unfold list_node_types. simpl. f_equal. rewrite !list_loop_filter. simpl.
  set (f := kept (Py.lower (Py.strip (Py.or_str q ""))) kind_).
  assert (Hvalues : List.filter f (Dict.values (_store a))
                    ≡ₚ List.filter f (Dict.values (_store b))).
  { apply filter_permutation. unfold Dict.values. now rewrite Hperm. }
  eapply (StronglySorted_unique_strong
            (fun x y => pair_lt (sort_key y) (sort_key x) = false)).
  - intros x1 x2 H1 H2 H12 H21.
    assert (Hk : sort_key x1 = sort_key x2) by (now apply pair_lt_antisym).
    rewrite sorted_perm in H1, H2.
    apply list_elem_of_In, filter_In in H1 as [H1 _].
    apply list_elem_of_In, filter_In in H2 as [H2 _].
    apply list_elem_of_In in H1, H2.
    unfold Dict.values in H2. rewrite <- Hperm in H2.
    apply (stored_value_get a _ Hkeyed) in H1, H2.
    congruence.
  - apply (sorted_ascending _ _ pair_lt_order).
  - apply (sorted_ascending _ _ pair_lt_order).
  - now rewrite !sorted_perm.
Qed.

Lemma list_ignores_publication_order_witness :
  fst (list_node_types None None (registry_with ["0.2.0"; "0.10.0"; "0.9.0"]))
  = fst (list_node_types None None (registry_with ["0.9.0"; "0.2.0"; "0.10.0"])).
Proof.
  apply (list_ignores_publication_order
           (registry_with ["0.2.0"; "0.10.0"; "0.9.0"])
           (registry_with ["0.9.0"; "0.2.0"; "0.10.0"])).
  - exists "arp-template-node-registry", "0.1.0". eexists. reflexivity.
  - vm_compute.
    apply (perm_trans (l' := [("atomic.echo", "0.2.0", echo "0.2.0");
                              ("atomic.echo", "0.9.0", echo "0.9.0");
                              ("atomic.echo", "0.10.0", echo "0.10.0")])).
    + apply perm_skip, perm_swap.
    + apply perm_swap.
Defined.

Lemma keyed_permutation (vs vs' : list string) :
  vs ≡ₚ vs' -> keyed (map with_key vs) ≡ₚ keyed (map with_key vs').
Proof.
  induction 1 as [|x l l' _ IH|x y l|l l' l'' _ IH1 _ IH2]; simpl.
  - reflexivity.
  - unfold with_key at 1 3. destruct (_semver_key x); [now constructor|exact IH].
  - unfold with_key at 1 2 4 5.
    destruct (_semver_key x), (_semver_key y); try reflexivity.
    apply Permutation_swap.
  - etrans; eauto.
Qed.

Lemma key_lt_antisym (a b : semver_key) :
  key_lt a b = false -> key_lt b a = false -> a = b.
Proof.
  unfold key_lt, Py.ltb_of. intros H1 H2.
  destruct key_compare_order as [Heq _ Hopp _].
  destruct (key_compare a b) eqn:E; [auto|discriminate|].
  rewrite Hopp, E in H2. discriminate.
Qed.

Lemma max_greatest {A K : Type} (key : A -> K) (lt : K -> K -> bool)
    (l : list A) (r : A) :
  strict_weak_order lt -> Py.max key lt l = Some r ->
  r ∈ l /\ forall x, x ∈ l -> lt (key r) (key x) = false.
Proof.
  intros Hlt Hmax.
  apply (max_first_greatest _ _ Hlt) in Hmax as (l1 & l2 & -> & H1 & H2).
  split; [apply elem_of_app; right; left|].
  intros x Hx. rewrite Forall_forall in H1, H2.
  apply elem_of_app in Hx as [Hx|Hx].
  - apply (lt_not_above key lt Hlt). auto.
  - apply elem_of_cons in Hx as [->|Hx]; [apply (swo_irrefl _ Hlt)|auto].
Qed.

(** X20.  The order of publication decides the latest version only
    between versions of equal key: when the version lists of two
    registries hold the same strings and no two of them that parse share a
    key, both registries resolve the latest version alike. *)
Theorem latest_ignores_order_without_ties (a b : NodeRegistry) (i : string) :
  published_versions a i ≡ₚ published_versions b i ->
  (forall v w, v ∈ published_versions a i -> w ∈ published_versions a i ->
               is_Some (_semver_key v) -> _semver_key v = _semver_key w ->
               v = w) ->
  latest_version i a = latest_version i b.
Proof.
  intros Hperm Hdistinct.
  destruct (published_versions a i) as [|va vsa] eqn:Ea.
  - apply Permutation_nil_l in Hperm.
    now rewrite (latest_version_empty i a Ea), (latest_version_empty i b (eq_sym Hperm)).
  - assert (Hb : published_versions b i <> []).
    { intros E. rewrite E in Hperm. now apply Permutation_nil_r in Hperm. }
    rewrite (latest_version_of_list i a _ Ea) by discriminate.
    rewrite (latest_version_of_list i b _ eq_refl) by exact Hb.
    pose proof (keyed_permutation _ _ Hperm) as Hk.
    destruct (keyed (map with_key (va :: vsa))) as [|ia ka] eqn:Eka.
    + apply Permutation_nil_l in Hk. rewrite <- Hk.
      assert (E : Py.sorted id Py.str_lt (va :: vsa)
                  = Py.sorted id Py.str_lt (published_versions b i)).
      { eapply (StronglySorted_unique_strong
                  (fun x y => Py.str_lt (id y) (id x) = false)).
        - intros x1 x2 _ _ H12 H21. now apply str_lt_antisym.
        - apply (sorted_ascending _ _ str_lt_order).
        - apply (sorted_ascending _ _ str_lt_order).
        - now rewrite !sorted_perm. }
      now rewrite E.
    + destruct (keyed (map with_key (published_versions b i))) as [|ib kb] eqn:Ekb.
      { now apply Permutation_nil_r in Hk. }
      destruct (max_is_Some snd key_lt (ia :: ka)) as [[v1 k1] H1]; [discriminate|].
      destruct (max_is_Some snd key_lt (ib :: kb)) as [[v2 k2] H2]; [discriminate|].
      rewrite H1, H2. simpl. f_equal.
      apply (max_greatest _ _ _ _ key_lt_order) in H1 as [Hin1 Hmax1].
      apply (max_greatest _ _ _ _ key_lt_order) in H2 as [Hin2 Hmax2].
      assert (Hin2' : (v2, k2) ∈ ia :: ka) by (now rewrite Hk).
      assert (Hin1' : (v1, k1) ∈ ib :: kb) by (now rewrite <- Hk).
      assert (k1 = k2) as ->.
      { apply key_lt_antisym; [apply (Hmax1 _ Hin2')|apply (Hmax2 _ Hin1')]. }
      rewrite <- Eka in Hin1, Hin2'.
      apply keyed_elem in Hin1 as [Hv1 Hk1]. apply keyed_elem in Hin2' as [Hv2 Hk2].
      apply Hdistinct; [exact Hv1|exact Hv2|rewrite Hk1; eauto|congruence].
Qed.

Lemma latest_ignores_order_without_ties_witness :
  latest_version "atomic.echo" (registry_with ["0.2.0"; "rc"; "0.10.0"])
  = latest_version "atomic.echo" (registry_with ["0.10.0"; "0.2.0"; "rc"]).
Proof.
  apply (latest_ignores_order_without_ties
           (registry_with ["0.2.0"; "rc"; "0.10.0"])
           (registry_with ["0.10.0"; "0.2.0"; "rc"]) "atomic.echo").
  - vm_compute.
    apply (perm_trans (l' := ["0.2.0"; "0.10.0"; "rc"])).
    + apply perm_skip, perm_swap.
    + apply perm_swap.
  - intros v w Hv Hw _. vm_compute in Hv, Hw.
    repeat (apply elem_of_cons in Hv as [->|Hv]);
      repeat (apply elem_of_cons in Hw as [->|Hw]);
      try (inversion Hv); try (inversion Hw);
      vm_compute; congruence.
Defined.

(** X21.  The keys are totally ordered by the comparison that [max] uses:
    no key is below itself, the order is transitive, and two keys of which
    neither is below the other are the same key.  Ties between versions are
    ties between identical keys. *)
Theorem key_order_is_total :
  (forall a, key_lt a a = false)
  /\ (forall a b c, key_lt a b = true -> key_lt b c = true -> key_lt a c = true)
  /\ (forall a b, key_lt a b = false -> key_lt b a = false -> a = b).
Proof.
  destruct key_lt_order as [H1 H2 _].
  split; [exact H1|]. split; [exact H2|]. exact key_lt_antisym.
Qed.

Lemma key_order_is_total_witness :
  key_lt (1, 0, 0, 0, [PStr "alpha"])%N (1, 0, 0, 0, [PStr "alpha"; PNum 1])%N = true
  /\ key_lt (1, 0, 0, 0, [PStr "alpha"; PNum 1])%N (1, 0, 0, 1, [])%N = true
  /\ key_lt (1, 0, 0, 0, [PStr "alpha"])%N (1, 0, 0, 1, [])%N = true.
Proof.
  assert (H1 : key_lt (1, 0, 0, 0, [PStr "alpha"])%N
                 (1, 0, 0, 0, [PStr "alpha"; PNum 1])%N = true) by reflexivity.
  assert (H2 : key_lt (1, 0, 0, 0, [PStr "alpha"; PNum 1])%N
                 (1, 0, 0, 1, [])%N = true) by reflexivity.
  split; [exact H1|]. split; [exact H2|].
  exact (proj1 (proj2 key_order_is_total) _ _ _ H1 H2).
Defined.

Section FilterSorted.
Context {A K : Type} (key : A -> K) (lt : K -> K -> bool) (f : A -> bool).
Hypothesis Hlt : strict_weak_order lt.

Lemma filter_insert_sorted (x : A) (l : list A) :
  StronglySorted (fun a b => lt (key b) (key a) = false) l ->
  List.filter f (Py.insert_sorted key lt x l)
  = if f x then Py.insert_sorted key lt x (List.filter f l) else List.filter f l.
Proof using Hlt.
  induction 1 as [|y l Hs IH Hy]; simpl.
  - now destruct (f x).
  - destruct (lt (key y) (key x)) eqn:E; simpl.
    + rewrite IH. destruct (f y), (f x); simpl; try reflexivity.
      now rewrite E.
    + destruct (f x) eqn:Hx; [|reflexivity].
      destruct (f y) eqn:Hfy; simpl; [now rewrite E|].
      destruct (List.filter f l) as [|z rest] eqn:Hf; [reflexivity|]. simpl.
      assert (Hz : In z l).
      { assert (H : In z (List.filter f l)) by (rewrite Hf; now left).
        now apply filter_In in H. }
      rewrite Forall_forall in Hy. apply list_elem_of_In, Hy in Hz.
      now rewrite (swo_ntrans _ Hlt _ _ _ Hz E).
Qed.

Lemma filter_sorted (l : list A) :
  List.filter f (Py.sorted key lt l) = Py.sorted key lt (List.filter f l).
Proof using Hlt.
  induction l as [|x l IH]; simpl; [reflexivity|].
  rewrite filter_insert_sorted by apply (sorted_ascending _ _ Hlt).
  rewrite IH. now destruct (f x).
Qed.
End FilterSorted.

Lemma filter_sublist {A : Type} (f : A -> bool) (l : list A) :
  List.filter f l `sublist_of` l.
Proof.
  induction l as [|x l IH]; simpl; [constructor|].
  destruct (f x); now constructor.
Qed.

Lemma filter_all {A : Type} (f : A -> bool) (l : list A) :
  (forall x, f x = true) -> List.filter f l = l.
Proof.
  intros H. induction l as [|x l IH]; simpl; [reflexivity|].
  now rewrite H, IH.
Qed.

Lemma list_node_types_unfold (q : option string) (kind_ : option NodeKind)
    (self : NodeRegistry) :
  fst (list_node_types q kind_ self)
  = Return (List.filter (kept (Py.lower (Py.strip (Py.or_str q ""))) kind_)
              (Py.sorted sort_key pair_lt (Dict.values (_store self)))).
Proof.
  unfold list_node_types. simpl. rewrite list_loop_filter. simpl.
  now rewrite (filter_sorted _ _ _ pair_lt_order).
Qed.

(** X22.  A filtered listing is the unfiltered listing with the entries
    that fail a filter left out: what remains keeps its order, and an entry
    of the full listing remains exactly when it passes the query filter and
    the kind filter. *)
Theorem filtered_listing_of_full_listing (self : NodeRegistry)
    (q : option string) (kind_ : option NodeKind) (out all : list NodeType) :
  fst (list_node_types q kind_ self) = Return out ->
  fst (list_node_types None None self) = Return all ->
  out `sublist_of` all
  /\ forall x, x ∈ out <-> x ∈ all /\ selected q kind_ x.
Proof.
  rewrite !list_node_types_unfold. intros [= <-] [= <-].
  rewrite (filter_all (kept _ None)) by reflexivity. split.
  - apply filter_sublist.
  - intros x. rewrite !list_elem_of_In, filter_In, kept_selected. reflexivity.
Qed.

Lemma filtered_listing_of_full_listing_witness :
  [echo "0.10.0"; echo "0.2.0"]
    `sublist_of` [echo "0.10.0"; echo "0.2.0"; flow "1.0.0"]
  /\ forall x,
       x ∈ [echo "0.10.0"; echo "0.2.0"]
       <-> x ∈ [echo "0.10.0"; echo "0.2.0"; flow "1.0.0"]
           /\ selected (Some " O ") (Some atomic) x.
Proof.
  apply (filtered_listing_of_full_listing mixed_registry
           (Some " O ") (Some atomic)).
  - vm_compute. reflexivity.
  - vm_compute. reflexivity.
Defined.
